(** * fusion_kit.messaging: channel naming, subscription registry,
      message factory and the Redis-backed broker

    A shallow embedding of [src/fusion_kit/messaging/channels.py],
    [message.py] and [message_queue.py], with the properties of the
    messaging design stated and proved over it. *)

From Stdlib Require Import NArith ZArith Ascii String Lia.
From stdpp Require Import base option list gmap fin_maps strings.

Local Open Scope string_scope.
Local Open Scope list_scope.

(** ** [uuid.UUID] and its [str()]

    The channel functions interpolate a [UUID] in an f-string, which
    formats it with [UUID.__str__]:
<<
    hex = '%032x' % self.int
    return '%s-%s-%s-%s-%s' % (hex[:8], hex[8:12], hex[12:16], hex[16:20], hex[20:])
>>
    A [UUID] holds an integer [0 <= int < 2**128]. *)
Module Uuid.

Record UUID : Type := mkUUID {
  uuid_int : N;
  uuid_int_range : bool_decide (uuid_int < 2 ^ 128)%N
}.

(** One lowercase hexadecimal digit, as ['%x'] prints it. *)
Definition hex_digit (d : N) : ascii :=
  match d with
  | 0 => "0" | 1 => "1" | 2 => "2" | 3 => "3" | 4 => "4" | 5 => "5"
  | 6 => "6" | 7 => "7" | 8 => "8" | 9 => "9" | 10 => "a" | 11 => "b"
  | 12 => "c" | 13 => "d" | 14 => "e" | _ => "f"
  end%N%char.

(** The [width] low hexadecimal digits of [n], least significant first. *)
Fixpoint hex_digits_lsf (width : nat) (n : N) : list ascii :=
  match width with
  | O => []
  | S w => hex_digit (n mod 16) :: hex_digits_lsf w (n / 16)
  end.

(** ['%032x' % n] for [n < 16**32]: zero-padded, most significant first. *)
Definition format_032x (n : N) : list ascii := rev (hex_digits_lsf 32 n).

(** Python's [l[i:j]] for [0 <= i <= j]. *)
Definition slice {A} (i j : nat) (l : list A) : list A := drop i (take j l).

Definition uuid_str (u : UUID) : string :=
  let hex := format_032x (uuid_int u) in
  let dash := "-"%char in
  string_of_list_ascii
    (slice 0 8 hex ++ dash :: slice 8 12 hex ++ dash :: slice 12 16 hex
       ++ dash :: slice 16 20 hex ++ dash :: drop 20 hex).

(** Reading the 32 digits back from the 36 characters of the dashed
    layout. *)
Definition undash (s : list ascii) : list ascii :=
  take 8 s ++ take 4 (drop 9 s) ++ take 4 (drop 14 s)
    ++ take 4 (drop 19 s) ++ drop 24 s.

End Uuid.

(** ** [channels.py]: [ChannelManager] *)
Module ChannelManager.
Import Uuid.

Definition get_agent_task_channel (agent_id : UUID) : string :=
  "agent:" +:+ uuid_str agent_id +:+ ":tasks".

Definition get_agent_status_channel (agent_id : UUID) : string :=
  "agent:" +:+ uuid_str agent_id +:+ ":status".

Definition get_agent_heartbeat_channel (agent_id : UUID) : string :=
  "agent:" +:+ uuid_str agent_id +:+ ":heartbeat".

Definition get_workflow_channel (workflow_id : UUID) : string :=
  "workflow:" +:+ uuid_str workflow_id +:+ ":updates".

Definition get_project_channel (project_id : UUID) : string :=
  "project:" +:+ uuid_str project_id +:+ ":events".

Definition get_broadcast_channel : string := "broadcast:system".

Definition get_coordination_channel : string := "coordination:requests".

Definition get_result_channel (task_id : UUID) : string :=
  "results:" +:+ uuid_str task_id.

Definition get_agent_pattern (agent_id : UUID) : string :=
  "agent:" +:+ uuid_str agent_id +:+ ":*".

Definition get_project_pattern (project_id : UUID) : string :=
  "project:" +:+ uuid_str project_id +:+ ":*".

Definition get_workflow_pattern (workflow_id : UUID) : string :=
  "workflow:" +:+ uuid_str workflow_id +:+ ":*".

(** The entity kinds that have a channel, each with the id it is named
    after; [channel_for] sends each to its naming function. *)
Inductive Entity : Type :=
| AgentTasks (agent_id : UUID)
| AgentStatus (agent_id : UUID)
| AgentHeartbeat (agent_id : UUID)
| WorkflowUpdates (workflow_id : UUID)
| ProjectEvents (project_id : UUID)
| TaskResults (task_id : UUID)
| Broadcast
| Coordination.

Inductive Kind : Type :=
| KAgentTasks | KAgentStatus | KAgentHeartbeat | KWorkflowUpdates
| KProjectEvents | KTaskResults | KBroadcast | KCoordination.

Definition kind (e : Entity) : Kind :=
  match e with
  | AgentTasks _ => KAgentTasks
  | AgentStatus _ => KAgentStatus
  | AgentHeartbeat _ => KAgentHeartbeat
  | WorkflowUpdates _ => KWorkflowUpdates
  | ProjectEvents _ => KProjectEvents
  | TaskResults _ => KTaskResults
  | Broadcast => KBroadcast
  | Coordination => KCoordination
  end.

(** The raw id the topic is built from; the two fixed channels have none. *)
Definition raw_id (e : Entity) : option UUID :=
  match e with
  | AgentTasks u | AgentStatus u | AgentHeartbeat u
  | WorkflowUpdates u | ProjectEvents u | TaskResults u => Some u
  | Broadcast | Coordination => None
  end.

Definition channel_for (e : Entity) : string :=
  match e with
  | AgentTasks a => get_agent_task_channel a
  | AgentStatus a => get_agent_status_channel a
  | AgentHeartbeat a => get_agent_heartbeat_channel a
  | WorkflowUpdates w => get_workflow_channel w
  | ProjectEvents p => get_project_channel p
  | TaskResults t => get_result_channel t
  | Broadcast => get_broadcast_channel
  | Coordination => get_coordination_channel
  end.

End ChannelManager.

(** ** [channels.py]: [ChannelSubscriptionManager]

    [self.subscriptions : dict[str, List[str]]] is a finite map from
    channel to the list of its subscribers, in subscription order.
    Every method returns [None] and mutates the map, so it is modelled
    as a function from the map before to the map after. *)
Module ChannelSubscriptionManager.

Abbreviation Subscriptions := (gmap string (list string)).

(** [__init__] *)
Definition init : Subscriptions := ∅.

(** [list.remove(x)]: drop the first occurrence of [x]; Python raises
    [ValueError] when there is none, here [None]. *)
Fixpoint list_remove (x : string) (l : list string) : option (list string) :=
  match l with
  | [] => None
  | y :: l' =>
      if decide (x = y) then Some l'
      else cons y <$> list_remove x l'
  end.

Definition subscribe (subscriber_id channel : string)
    (subscriptions : Subscriptions) : Subscriptions :=
  (* if channel not in self.subscriptions: self.subscriptions[channel] = [] *)
  let subscriptions :=
    match subscriptions !! channel with
    | None => <[channel := []]> subscriptions
    | Some _ => subscriptions
    end in
  (* if subscriber_id not in self.subscriptions[channel]: ....append(subscriber_id) *)
  match subscriptions !! channel with
  | Some subscribers =>
      if decide (subscriber_id ∈ subscribers) then subscriptions
      else <[channel := subscribers ++ [subscriber_id]]> subscriptions
  | None => subscriptions
  end.

Definition unsubscribe (subscriber_id channel : string)
    (subscriptions : Subscriptions) : Subscriptions :=
  match subscriptions !! channel with
  | Some subscribers =>
      match list_remove subscriber_id subscribers with
      | Some subscribers' =>
          let subscriptions := <[channel := subscribers']> subscriptions in
          (* if not self.subscriptions[channel]: del self.subscriptions[channel] *)
          match subscribers' with
          | [] => delete channel subscriptions
          | _ :: _ => subscriptions
          end
      | None => subscriptions
      end
  | None => subscriptions
  end.

Definition get_subscribers (channel : string)
    (subscriptions : Subscriptions) : list string :=
  default [] (subscriptions !! channel).

Definition get_subscriptions (subscriber_id : string)
    (subscriptions : Subscriptions) : list string :=
  (map_to_list (filter (λ item, subscriber_id ∈ item.2) subscriptions)).*1.

Definition is_subscribed (subscriber_id channel : string)
    (subscriptions : Subscriptions) : bool :=
  bool_decide (subscriber_id ∈ default [] (subscriptions !! channel)).

(** One turn of the first loop of [clear_subscriber]: the list stored
    under [channel] is mutated in place, and the channel is noted when
    that leaves it empty. The loop visits every item once; each turn
    touches only its own key, so the order of the visit (insertion
    order in Python, [map_to_list]'s here) does not show in the result. *)
Definition clear_step (subscriber_id : string)
    (acc : Subscriptions * list string) (item : string * list string)
    : Subscriptions * list string :=
  let '(subscriptions, channels_to_clean) := acc in
  let '(channel, subscribers) := item in
  match list_remove subscriber_id subscribers with
  | Some subscribers' =>
      (<[channel := subscribers']> subscriptions,
       match subscribers' with
       | [] => channels_to_clean ++ [channel]
       | _ :: _ => channels_to_clean
       end)
  | None => acc
  end.

Definition clear_subscriber (subscriber_id : string)
    (subscriptions : Subscriptions) : Subscriptions :=
  let '(subscriptions, channels_to_clean) :=
    foldl (clear_step subscriber_id) (subscriptions, [])
          (map_to_list subscriptions) in
  (* for channel in channels_to_clean: del self.subscriptions[channel] *)
  foldl (λ subs channel, delete channel subs) subscriptions channels_to_clean.

(** What stays under a channel holding [subscribers] once
    [subscriber_id] is removed from it: nothing when that empties the
    list, the list as it was when the subscriber is not in it. *)
Definition after_removal (subscriber_id : string)
    (subscribers : list string) : option (list string) :=
  match list_remove subscriber_id subscribers with
  | Some [] => None
  | Some (s :: l) => Some (s :: l)
  | None => Some subscribers
  end.

(** The calls a client of the registry can make, and the registry
    states they lead to from a fresh one. *)
Inductive Op : Type :=
| OpSubscribe (subscriber_id channel : string)
| OpUnsubscribe (subscriber_id channel : string)
| OpClearSubscriber (subscriber_id : string).

Definition apply_op (subscriptions : Subscriptions) (op : Op) : Subscriptions :=
  match op with
  | OpSubscribe s c => subscribe s c subscriptions
  | OpUnsubscribe s c => unsubscribe s c subscriptions
  | OpClearSubscriber s => clear_subscriber s subscriptions
  end.

Definition run_ops (ops : list Op) : Subscriptions := foldl apply_op init ops.

(** The registry invariant: no channel key maps to an empty list. *)
Definition no_empty_channel (subscriptions : Subscriptions) : Prop :=
  ∀ channel subscribers,
    subscriptions !! channel = Some subscribers → subscribers ≠ [].

(** No subscriber is listed twice under a channel. *)
Definition no_duplicate_subscriber (subscriptions : Subscriptions) : Prop :=
  ∀ channel subscribers,
    subscriptions !! channel = Some subscribers → NoDup subscribers.

(** How often [x] occurs in [l] ([list.count]). *)
Definition count (x : string) (l : list string) : nat :=
  length (filter (λ y, y = x) l).

End ChannelSubscriptionManager.

(** ** Python values

    What a [Dict[str, Any]] holds, and what [json.loads] returns.
    [VObject] stands for an object of any other type (a [UUID], a
    [datetime]), of which only the type's name is kept. *)
Module Py.

#[local] Set Warnings "-register-all".

Inductive PyVal : Type :=
| VNone
| VBool (b : bool)
| VInt (n : Z)
| VStr (s : string)
| VList (l : list PyVal)
| VDict (d : gmap string PyVal)
| VObject (type_name : string).

Abbreviation Dict := (gmap string PyVal).

(** [x or d] on an optional list: [None] and the empty list are both
    falsy, so both give [d]. *)
Definition or_list {A} (x : option (list A)) (d : list A) : list A :=
  match x with
  | Some (a :: l) => a :: l
  | Some [] | None => d
  end.

(** [x or d] on an optional dict: [None] and the empty dict give [d]. *)
Definition or_dict (x : option Dict) (d : Dict) : Dict :=
  match x with
  | Some m => if decide (m = ∅) then d else m
  | None => d
  end.

End Py.

(** ** [message.py] *)
Module Message.
Import Uuid Py.

Inductive MessageType : Type :=
| TASK_ASSIGNMENT
| STATUS_UPDATE
| COLLABORATION_REQUEST
| HEARTBEAT
| ERROR_REPORT
| RESULT_DELIVERY
| CAPABILITY_QUERY
| CAPABILITY_RESPONSE
| WORKFLOW_DIRECTIVE
| CUSTOM.

(** The [str] value of each member of the enum. *)
Definition MessageType_value (t : MessageType) : string :=
  match t with
  | TASK_ASSIGNMENT => "task_assignment"
  | STATUS_UPDATE => "status_update"
  | COLLABORATION_REQUEST => "collaboration_request"
  | HEARTBEAT => "heartbeat"
  | ERROR_REPORT => "error_report"
  | RESULT_DELIVERY => "result_delivery"
  | CAPABILITY_QUERY => "capability_query"
  | CAPABILITY_RESPONSE => "capability_response"
  | WORKFLOW_DIRECTIVE => "workflow_directive"
  | CUSTOM => "custom"
  end.

Inductive DeliveryStatus : Type := PENDING | DELIVERED | FAILED | EXPIRED.

(** [class MessagePayload(BaseModel)]; with [use_enum_values] the
    [message_type] field holds the enum member's value. *)
Record MessagePayload : Type := mkMessagePayload {
  message_type : string;
  content : Dict;
  metadata : Dict;
  correlation_id : option string
}.

(** The fields [MessagePayload] declares, which are the keys of its
    serialised form. *)
Definition model_dump (p : MessagePayload) : Dict :=
  <["message_type" := VStr (message_type p)]>
  (<["content" := VDict (content p)]>
  (<["metadata" := VDict (metadata p)]>
  (<["correlation_id" := from_option VStr VNone (correlation_id p)]> ∅))).

(** [class Message(BaseModel)]; a [datetime] is kept as a timestamp. *)
Record Message : Type := mkMessage {
  id : UUID;
  timestamp : Z;
  sender_agent_id : UUID;
  recipient_agent_ids : option (list UUID);
  topic : string;
  payload : MessagePayload;
  msg_message_type : string;
  delivery_status : DeliveryStatus;
  delivered_at : option Z;
  expiry_at : option Z
}.

(** The keys the factory stamps on the content before the caller's. *)
Definition stamped (sender_agent_id : UUID)
    (recipient_agent_ids : option (list UUID)) : Dict :=
  <["recipients" :=
      VList ((λ id, VStr (uuid_str id)) <$> or_list recipient_agent_ids [])]>
  (<["sender_agent_id" := VStr (uuid_str sender_agent_id)]> ∅).

(** [create_message]. In the dict display
    [{"sender_agent_id": .., "recipients": .., **content}] a key of
    [content] overrides a stamped key of the same name, which is the
    left-biased union [content ∪ stamped]. *)
Definition create_message (message_type : MessageType)
    (sender_agent_id : UUID) (content : Dict) (topic : string)
    (recipient_agent_ids : option (list UUID)) (metadata : option Dict)
    : MessagePayload :=
  {| message_type := MessageType_value message_type;
     content := content ∪ stamped sender_agent_id recipient_agent_ids;
     metadata := or_dict metadata ∅;
     correlation_id := None |}.

End Message.

(** ** [message_queue.py]: [MessageQueue]

    The broker talks to Redis through the [redis.asyncio] client. The
    client and the server behind it are the environment of the code:
    every client call is an event, and the environment decides, from
    the events so far, what the call returns or raises. Methods run in
    a state-and-exception monad over the object's fields and the trace
    of events; a raised exception keeps the state reached so far, as
    in Python. Logging is left out: it changes neither a returned
    value nor a raised exception. *)
Module MessageQueue.
Import Py.

Inductive PyExc : Type :=
| RuntimeError (msg : string)
| RedisError (msg : string)
| JSONDecodeError (msg : string)
| TypeError (msg : string)
| RecursionError (msg : string)
| AttributeError (msg : string).

Inductive result (A : Type) : Type :=
| Ok (a : A)
| Raise (e : PyExc).
Arguments Ok {A} a.
Arguments Raise {A} e.

(** The object [redis.from_url] returns, and a [PubSub] session. *)
Record RedisClient : Type := mkClient { client_url : string }.
Record PubSub : Type := mkPubSub { pubsub_id : nat }.

(** A message dict produced by [PubSub.listen()]. *)
Record RawMessage : Type := mkRaw {
  m_type : string;
  m_pattern : option string;
  m_channel : string;
  m_data : string
}.

(** The client calls the broker makes, indexed by what they return.
    [pubsub_listen] returns the messages the session delivers while
    the consumer iterates, and the exception that ends the iteration
    when the transport fails. *)
Inductive Call : Type → Type :=
| redis_from_url (url : string) : Call RedisClient
| redis_ping (c : RedisClient) : Call unit
| redis_close (c : RedisClient) : Call unit
| redis_publish (c : RedisClient) (topic message_json : string) : Call Z
| redis_setex (c : RedisClient) (key : string) (ttl : Z) (value : string) : Call unit
| redis_get (c : RedisClient) (key : string) : Call (option string)
| redis_delete (c : RedisClient) (key : string) : Call Z
| redis_pubsub_channels (c : RedisClient) : Call (list string)
| redis_pubsub_numsub (c : RedisClient) (channel : string)
    : Call (list (string * Z))
| redis_pubsub (c : RedisClient) : Call PubSub
| pubsub_subscribe (ps : PubSub) (topic : string) : Call unit
| pubsub_psubscribe (ps : PubSub) (pattern : string) : Call unit
| pubsub_listen (ps : PubSub) : Call (list RawMessage * option PyExc)
| pubsub_unsubscribe (ps : PubSub) (topic : string) : Call unit
| pubsub_punsubscribe (ps : PubSub) (pattern : string) : Call unit
| pubsub_close (ps : PubSub) : Call unit.

Definition Event : Type := { R : Type & Call R }.
Definition event {R} (c : Call R) : Event := existT R c.

(** The environment: the outcome of a call, given the events before it. *)
Definition Redis : Type := ∀ R, list Event → Call R → result R.

Record MessageQueue : Type := mkMessageQueue {
  redis_url : string;
  redis_client : option RedisClient;
  pubsub : option PubSub
}.

(** [__init__] *)
Definition init (redis_url : string) : MessageQueue :=
  {| redis_url := redis_url; redis_client := None; pubsub := None |}.

Record State : Type := mkState {
  self : MessageQueue;
  trace : list Event
}.

Definition M (A : Type) : Type := State → result A * State.

Definition ret {A} (a : A) : M A := λ st, (Ok a, st).
Definition raise {A} (e : PyExc) : M A := λ st, (Raise e, st).
Definition bind {A B} (m : M A) (k : A → M B) : M B :=
  λ st, match m st with
        | (Ok a, st') => k a st'
        | (Raise e, st') => (Raise e, st')
        end.

(** [try: m  except Exception as e: h e] *)
Definition try_except {A} (m : M A) (h : PyExc → M A) : M A :=
  λ st, match m st with
        | (Ok a, st') => (Ok a, st')
        | (Raise e, st') => h e st'
        end.

(** What a block did, as a value. *)
Definition attempt {A} (m : M A) : M (result A) :=
  λ st, let '(r, st') := m st in (Ok r, st').

Definition get_self : M MessageQueue := λ st, (Ok (self st), st).
Definition set_redis_client (c : RedisClient) : M unit :=
  λ st, (Ok tt,
         {| self := {| redis_url := redis_url (self st);
                       redis_client := Some c;
                       pubsub := pubsub (self st) |};
            trace := trace st |}).

Declare Scope py_scope.
Delimit Scope py_scope with py.
Notation "'let*' x ':=' m 'in' k" := (bind m (λ x, k))
  (at level 10, x name, m at level 100, k at level 200) : py_scope.
Notation "'let*' ' p ':=' m 'in' k" := (bind m (λ x, match x with p => k end))
  (at level 10, p strict pattern, m at level 100, k at level 200) : py_scope.
Notation "'do' m 'in' k" := (bind m (λ _, k))
  (at level 10, m at level 100, k at level 200) : py_scope.
Local Open Scope py_scope.

Definition not_connected : PyExc :=
  RuntimeError "Not connected to Redis. Call connect() first.".

(** What an async generator gave its consumer: the items it yielded
    and, when it did not end by being closed, the exception it raised. *)
Record Stream (A : Type) : Type := mkStream {
  yielded : list A;
  ending : option PyExc
}.
Arguments mkStream {A} yielded ending.
Arguments yielded {A} s.
Arguments ending {A} s.

Section WithEnvironment.

Variable json_loads : string → result PyVal.
Variable json_dumps : Dict → result string.
Variable redis : Redis.

Definition call {R} (c : Call R) : M R :=
  λ st, (redis R (trace st) c,
         {| self := self st; trace := trace st ++ [event c] |}).

Definition lift {A} (r : result A) : M A := λ st, (r, st).

(** [if not self.redis_client: raise RuntimeError(...)] *)
Definition require_client : M RedisClient :=
  let* mq := get_self in
  match redis_client mq with
  | Some c => ret c
  | None => raise not_connected
  end.

Definition connect : M unit :=
  try_except
    (let* mq := get_self in
     let* c := call (redis_from_url (redis_url mq)) in
     do set_redis_client c in
     call (redis_ping c))
    (λ e, raise e).

Definition disconnect : M unit :=
  let* mq := get_self in
  do match pubsub mq with
     | Some ps => call (pubsub_close ps)
     | None => ret tt
     end in
  match redis_client mq with
  | Some c => call (redis_close c)
  | None => ret tt
  end.

Definition publish (topic : string) (message : Dict) : M Z :=
  let* c := require_client in
  try_except
    (let* message_json := lift (json_dumps message) in
     call (redis_publish c topic message_json))
    (λ e, raise e).

(** The body of [async for message in pubsub.listen()] in
    [subscribe], over the messages the session delivers. *)
Fixpoint subscribe_loop (messages : list RawMessage) : Stream PyVal :=
  match messages with
  | [] => mkStream [] None
  | message :: rest =>
      if String.eqb (m_type message) "message" then
        match json_loads (m_data message) with
        | Ok data =>
            let s := subscribe_loop rest in
            mkStream (data :: yielded s) (ending s)
        | Raise (JSONDecodeError _) => subscribe_loop rest
        | Raise e => mkStream [] (Some e)
        end
      else subscribe_loop rest
  end.

Fixpoint psubscribe_loop (messages : list RawMessage)
    : Stream (string * PyVal) :=
  match messages with
  | [] => mkStream [] None
  | message :: rest =>
      if String.eqb (m_type message) "pmessage" then
        match json_loads (m_data message) with
        | Ok data =>
            let s := psubscribe_loop rest in
            mkStream ((m_channel message, data) :: yielded s) (ending s)
        | Raise (JSONDecodeError _) => psubscribe_loop rest
        | Raise e => mkStream [] (Some e)
        end
      else psubscribe_loop rest
  end.

(** The loop ends by itself only when the listening ends. *)
Definition then_ending {A} (s : Stream A) (e : option PyExc) : Stream A :=
  match ending s with
  | Some _ => s
  | None => mkStream (yielded s) e
  end.

(** [try: body  finally: cleanup], for a generator body: the items
    already yielded stay yielded, and an exception of the cleanup
    replaces the one in flight. *)
Definition generator_finally {A} (body : M (Stream A)) (cleanup : M unit)
    : M (Stream A) :=
  let* b := attempt body in
  let* f := attempt cleanup in
  let s := match b with
           | Ok s => s
           | Raise e => mkStream [] (Some e)
           end in
  ret match f with
      | Ok _ => s
      | Raise e' => mkStream (yielded s) (Some e')
      end.

(** An async generator raises into its consumer, at the first
    [__anext__] at the earliest. *)
Definition generator {A} (body : M (Stream A)) : M (Stream A) :=
  try_except body (λ e, ret (mkStream [] (Some e))).

Definition subscribe (topic : string) : M (Stream PyVal) :=
  generator
    (let* c := require_client in
     let* ps := call (redis_pubsub c) in
     generator_finally
       (do call (pubsub_subscribe ps topic) in
        let* '(messages, e) := call (pubsub_listen ps) in
        ret (then_ending (subscribe_loop messages) e))
       (do call (pubsub_unsubscribe ps topic) in
        call (pubsub_close ps))).

Definition psubscribe (pattern : string) : M (Stream (string * PyVal)) :=
  generator
    (let* c := require_client in
     let* ps := call (redis_pubsub c) in
     generator_finally
       (do call (pubsub_psubscribe ps pattern) in
        let* '(messages, e) := call (pubsub_listen ps) in
        ret (then_ending (psubscribe_loop messages) e))
       (do call (pubsub_punsubscribe ps pattern) in
        call (pubsub_close ps))).

Definition set_message_expiry (key : string) (value : Dict)
    (ttl_seconds : Z) : M unit :=
  let* c := require_client in
  try_except
    (let* message_json := lift (json_dumps value) in
     call (redis_setex c key ttl_seconds message_json))
    (λ e, raise e).

(** Python's [None] is [VNone]. *)
Definition get_message (key : string) : M PyVal :=
  let* c := require_client in
  try_except
    (let* value := call (redis_get c key) in
     match value with
     | Some (String a s) => lift (json_loads (String a s))
     | Some EmptyString | None => ret VNone
     end)
    (λ e, ret VNone).

Definition delete_message (key : string) : M bool :=
  let* c := require_client in
  try_except
    (let* n := call (redis_delete c key) in
     ret (0 <? n)%Z)
    (λ e, ret false).

Definition list_channels : M (list string) :=
  let* c := require_client in
  try_except
    (call (redis_pubsub_channels c))
    (λ e, ret []).

(** The client answers [PUBSUB NUMSUB] with a list of
    [(channel, count)] pairs. An empty list is falsy; on any other
    reply [result.get] is looked up on a list, which has no such
    attribute, and the [AttributeError] is raised inside the [try]. *)
Definition get_channel_subscribers (channel : string) : M Z :=
  let* c := require_client in
  try_except
    (let* result := call (redis_pubsub_numsub c channel) in
     match result with
     | [] => ret 0%Z
     | _ :: _ => raise (AttributeError "'list' object has no attribute 'get'")
     end)
    (λ e, ret 0%Z).

End WithEnvironment.


(** An environment in which client [c] opens session [ps], the
    session's commands succeed, and [messages] arrive on it until the
    consumer stops listening. *)
Definition session_delivers (redis : Redis) (c : RedisClient) (ps : PubSub)
    (messages : list RawMessage) : Prop :=
  ∀ tr,
    redis _ tr (redis_pubsub c) = Ok ps ∧
    (∀ topic, redis _ tr (pubsub_subscribe ps topic) = Ok tt) ∧
    (∀ pattern, redis _ tr (pubsub_psubscribe ps pattern) = Ok tt) ∧
    redis _ tr (pubsub_listen ps) = Ok (messages, None) ∧
    (∀ topic, redis _ tr (pubsub_unsubscribe ps topic) = Ok tt) ∧
    (∀ pattern, redis _ tr (pubsub_punsubscribe ps pattern) = Ok tt) ∧
    redis _ tr (pubsub_close ps) = Ok tt.

End MessageQueue.

(** ** Concrete ids, documents and environments for the examples *)
Module Fixtures.
Import Uuid Py Message MessageQueue.

Definition agent_a : UUID :=
  mkUUID 0x12345678123456781234567812345678 I.
Definition agent_b : UUID :=
  mkUUID 0x0000000000000000000000000000002a I.

(** [json.loads] and [json.dumps] on the few documents the examples
    use: every other text is malformed; the dicts are the empty one
    and one that holds a [UUID] object, for which [json.dumps] has no
    encoding, and every other dict is refused like it. *)
Definition loads (s : string) : result PyVal :=
  if String.eqb s "{}" then Ok (VDict ∅)
  else if String.eqb s "null" then Ok VNone
  else if String.eqb s "true" then Ok (VBool true)
  else if String.eqb s "false" then Ok (VBool false)
  else Raise (JSONDecodeError "Expecting value").

Definition dumps (d : Dict) : result string :=
  if decide (d = ∅) then Ok "{}"
  else Raise (TypeError "Object of type UUID is not JSON serializable").

(** A reachable server with nothing stored and nobody subscribed. *)
Definition healthy : Redis :=
  λ R tr c,
    match c in Call R return result R with
    | redis_from_url url => Ok (mkClient url)
    | redis_ping _ => Ok tt
    | redis_close _ => Ok tt
    | redis_publish _ _ _ => Ok 0%Z
    | redis_setex _ _ _ _ => Ok tt
    | redis_get _ _ => Ok None
    | redis_delete _ _ => Ok 0%Z
    | redis_pubsub_channels _ => Ok []
    | redis_pubsub_numsub _ channel => Ok [(channel, 0%Z)]
    | redis_pubsub _ => Ok (mkPubSub 0)
    | pubsub_subscribe _ _ => Ok tt
    | pubsub_psubscribe _ _ => Ok tt
    | pubsub_listen _ => Ok ([], None)
    | pubsub_unsubscribe _ _ => Ok tt
    | pubsub_punsubscribe _ _ => Ok tt
    | pubsub_close _ => Ok tt
    end.

Definition refused : PyExc := RedisError "Connection refused".

(** The client object is built, but the server does not answer the
    handshake [PING]. *)
Definition ping_refused : Redis :=
  λ R tr c,
    match c in Call R return result R with
    | redis_ping _ => Raise refused
    | c' => healthy _ tr c'
    end.

(** No client can be built at all. *)
Definition unreachable : Redis :=
  λ R tr c,
    match c in Call R return result R with
    | redis_from_url _ => Raise refused
    | c' => healthy _ tr c'
    end.

(** The key-value commands fail. *)
Definition store_down : Redis :=
  λ R tr c,
    match c in Call R return result R with
    | redis_setex _ _ _ _ => Raise refused
    | redis_get _ _ => Raise refused
    | redis_delete _ _ => Raise refused
    | c' => healthy _ tr c'
    end.

(** A session on which [messages] arrive. *)
Definition delivering (messages : list RawMessage) : Redis :=
  λ R tr c,
    match c in Call R return result R with
    | pubsub_listen _ => Ok (messages, None)
    | c' => healthy _ tr c'
    end.

(** A server that holds [text] under every key. *)
Definition storing (text : string) : Redis :=
  λ R tr c,
    match c in Call R return result R with
    | redis_get _ _ => Ok (Some text)
    | redis_delete _ _ => Ok 1%Z
    | c' => healthy _ tr c'
    end.

(** A server on which every channel has [n] subscribers. *)
Definition subscribed (n : Z) : Redis :=
  λ R tr c,
    match c in Call R return result R with
    | redis_pubsub_numsub _ channel => Ok [(channel, n)]
    | c' => healthy _ tr c'
    end.

(** A session that cannot take its subscriptions back. *)
Definition stuck_session : Redis :=
  λ R tr c,
    match c in Call R return result R with
    | pubsub_unsubscribe _ _ => Raise refused
    | pubsub_punsubscribe _ _ => Raise refused
    | c' => healthy _ tr c'
    end.

Definition url : string := "redis://localhost:6379".
Definition client : RedisClient := mkClient url.
Definition connected : MessageQueue :=
  {| redis_url := url; redis_client := Some client; pubsub := None |}.






End Fixtures.

(** ** [channels.py]: [TopicRouter] and the wildcard patterns *)
Module TopicRouter.
Import Uuid ChannelManager.

Definition route_task_assignment (agent_id task_id : UUID) : string :=
  get_agent_task_channel agent_id.

Definition route_status_update (agent_id : UUID) : string :=
  get_agent_status_channel agent_id.

Definition route_workflow_update (workflow_id : UUID) : string :=
  get_workflow_channel workflow_id.

Definition route_result_delivery (task_id : UUID) : string :=
  get_result_channel task_id.

Definition route_coordination_request (project_id : UUID) : string :=
  get_project_channel project_id.

Definition route_system_event : string := get_broadcast_channel.

(** The domain events the router has a function for. *)
Inductive DomainEvent : Type :=
| TaskAssignment (agent_id task_id : UUID)
| StatusUpdate (agent_id : UUID)
| WorkflowUpdate (workflow_id : UUID)
| ResultDelivery (task_id : UUID)
| CoordinationRequest (project_id : UUID)
| SystemEvent.

Definition route (ev : DomainEvent) : string :=
  match ev with
  | TaskAssignment a t => route_task_assignment a t
  | StatusUpdate a => route_status_update a
  | WorkflowUpdate w => route_workflow_update w
  | ResultDelivery t => route_result_delivery t
  | CoordinationRequest p => route_coordination_request p
  | SystemEvent => route_system_event
  end.

(** The entity a domain event is about: a task assignment is about
    the agent, whatever the task. *)
Definition target (ev : DomainEvent) : Entity :=
  match ev with
  | TaskAssignment a _ => AgentTasks a
  | StatusUpdate a => AgentStatus a
  | WorkflowUpdate w => WorkflowUpdates w
  | ResultDelivery t => TaskResults t
  | CoordinationRequest p => ProjectEvents p
  | SystemEvent => Broadcast
  end.

(** What stands before the last character of a pattern, its [*]. *)
Definition stem (pattern : string) : string :=
  substring 0 (String.length pattern - 1) pattern.

(** A topic is in the sub-tree a pattern names when it begins with
    the pattern's stem. *)
Definition covers (pattern topic : string) : bool :=
  String.prefix (stem pattern) topic.

End TopicRouter.

(** ** [message_queue.py]: [MessageQueueContext] *)
Module MessageQueueContext.
Import MessageQueue.
Local Open Scope py_scope.

Definition aenter (redis : Redis) : M unit := connect redis.
Definition aexit (redis : Redis) : M unit := disconnect redis.

(** [async with MessageQueueContext(url) as mq: body]. [__aexit__]
    runs when the block is left, however it is left, and returns
    [None], so an exception of the block goes on to the caller. *)
Definition async_with {A} (redis : Redis) (body : M A) : M A :=
  do aenter redis in
  let* r := attempt body in
  do aexit redis in
  lift r.

End MessageQueueContext.

(** ** [message_queue.py]: the life of a broker object

    The methods a holder of a [MessageQueue] can call, and the state
    the object is in after a sequence of calls on a fresh one. A call
    that raises leaves the object as the raise found it. *)
Module BrokerCalls.
Import Py MessageQueue.

Inductive Method : Type :=
| Connect
| Disconnect
| Publish (topic : string) (message : Dict)
| Subscribe (topic : string)
| PSubscribe (pattern : string)
| SetMessageExpiry (key : string) (value : Dict) (ttl_seconds : Z)
| GetMessage (key : string)
| DeleteMessage (key : string)
| ListChannels
| GetChannelSubscribers (channel : string).

Section WithEnvironment.

Variable json_loads : string → result PyVal.
Variable json_dumps : Dict → result string.
Variable redis : Redis.

Definition invoke (st : State) (m : Method) : State :=
  match m with
  | Connect => (connect redis st).2
  | Disconnect => (disconnect redis st).2
  | Publish topic message => (publish json_dumps redis topic message st).2
  | Subscribe topic => (subscribe json_loads redis topic st).2
  | PSubscribe pattern => (psubscribe json_loads redis pattern st).2
  | SetMessageExpiry key value ttl =>
      (set_message_expiry json_dumps redis key value ttl st).2
  | GetMessage key => (get_message json_loads redis key st).2
  | DeleteMessage key => (delete_message redis key st).2
  | ListChannels => (list_channels redis st).2
  | GetChannelSubscribers channel =>
      (get_channel_subscribers redis channel st).2
  end.

Definition run (redis_url : string) (calls : list Method) : State :=
  foldl invoke (mkState (init redis_url) []) calls.

End WithEnvironment.

End BrokerCalls.

(** * Properties *)

(** ** [str(UUID)] is injective *)
Module UuidFacts.
Import Uuid.

Lemma hex_digit_inj (d e : N) :
  (d < 16)%N → (e < 16)%N → hex_digit d = hex_digit e → d = e.
Proof.
  intros Hd He.
  assert (Hcases : ∀ x : N, (x < 16)%N →
    x ∈ [0; 1; 2; 3; 4; 5; 6; 7; 8; 9; 10; 11; 12; 13; 14; 15]%N).
  { intros x Hx.
    replace x with (N.of_nat (N.to_nat x)) by lia.
    assert (Hn : N.to_nat x < 16) by lia.
    revert Hn. generalize (N.to_nat x) as k. intros k Hk.
    do 16 (destruct k as [|k]; [set_solver|]). lia. }
  pose proof (Hcases d Hd) as Hd'. pose proof (Hcases e He) as He'.
  repeat (apply elem_of_cons in Hd' as [->|Hd']);
    [..|by apply elem_of_nil in Hd'];
    repeat (apply elem_of_cons in He' as [->|He']);
    try (by apply elem_of_nil in He'); try reflexivity; discriminate.
Qed.

Lemma hex_digits_lsf_length w n : length (hex_digits_lsf w n) = w.
Proof. revert n. induction w as [|w IH]; intros n; simpl; [done|]. by rewrite IH. Qed.

Lemma hex_digits_lsf_inj w (n m : N) :
  (n < 16 ^ N.of_nat w)%N → (m < 16 ^ N.of_nat w)%N →
  hex_digits_lsf w n = hex_digits_lsf w m → n = m.
Proof.
  revert n m. induction w as [|w IH]; intros n m Hn Hm Heq.
  - simpl in *. lia.
  - simpl in Heq. injection Heq as Hd Hrest.
    replace (N.of_nat (S w)) with (N.succ (N.of_nat w)) in * by lia.
    rewrite N.pow_succ_r' in Hn, Hm.
    apply hex_digit_inj in Hd; [|apply N.mod_lt; lia..].
    apply IH in Hrest; [|apply N.Div0.div_lt_upper_bound; lia..].
    rewrite (N.div_mod' n 16), (N.div_mod' m 16). congruence.
Qed.

Lemma format_032x_length n : length (format_032x n) = 32.
Proof. unfold format_032x. by rewrite length_rev, hex_digits_lsf_length. Qed.

Lemma format_032x_inj (n m : N) :
  (n < 2 ^ 128)%N → (m < 2 ^ 128)%N → format_032x n = format_032x m → n = m.
Proof.
  intros Hn Hm Heq. unfold format_032x in Heq.
  apply (f_equal (@rev ascii)) in Heq. rewrite !rev_involutive in Heq.
  apply (hex_digits_lsf_inj 32); [| |done].
  - change (16 ^ N.of_nat 32)%N with (2 ^ 128)%N. done.
  - change (16 ^ N.of_nat 32)%N with (2 ^ 128)%N. done.
Qed.

Lemma undash_dashed (hex : list ascii) (dash : ascii) :
  length hex = 32 →
  undash (slice 0 8 hex ++ dash :: slice 8 12 hex ++ dash :: slice 12 16 hex
            ++ dash :: slice 16 20 hex ++ dash :: drop 20 hex) = hex.
Proof.
  intros Hlen.
  do 32 (destruct hex as [|? hex]; [discriminate Hlen|]).
  destruct hex; [reflexivity|discriminate Hlen].
Qed.

Lemma string_of_list_ascii_inj (l k : list ascii) :
  string_of_list_ascii l = string_of_list_ascii k → l = k.
Proof.
  intros H. apply (f_equal list_ascii_of_string) in H.
  by rewrite !list_ascii_of_string_of_list_ascii in H.
Qed.

Lemma uuid_eq (u v : UUID) : uuid_int u = uuid_int v → u = v.
Proof.
  destruct u as [n Hn], v as [m Hm]; simpl; intros ->.
  f_equal. apply proof_irrel.
Qed.

Lemma uuid_str_inj (u v : UUID) : uuid_str u = uuid_str v → u = v.
Proof.
  unfold uuid_str. intros H. apply string_of_list_ascii_inj in H.
  apply (f_equal undash) in H.
  rewrite !undash_dashed in H by apply format_032x_length.
  apply uuid_eq, format_032x_inj; [| |done].
  - pose proof (uuid_int_range u) as Hu. by apply bool_decide_unpack in Hu.
  - pose proof (uuid_int_range v) as Hv. by apply bool_decide_unpack in Hv.
Qed.

Lemma uuid_str_length (u : UUID) : String.length (uuid_str u) = 36.
Proof.
  unfold uuid_str. pose proof (format_032x_length (uuid_int u)) as Hlen.
  destruct (format_032x (uuid_int u)) as [|? hex]; [discriminate|].
  do 31 (destruct hex as [|? hex]; [discriminate Hlen|]).
  destruct hex; [reflexivity|discriminate Hlen].
Qed.

End UuidFacts.

(** ** Channel naming *)
Module ChannelManagerFacts.
Import Uuid UuidFacts ChannelManager.

Lemma list_ascii_of_string_app (s t : string) :
  list_ascii_of_string (s +:+ t)
  = list_ascii_of_string s ++ list_ascii_of_string t.
Proof. induction s as [|c s IH]; simpl; [done|]. by rewrite IH. Qed.

Lemma list_ascii_of_string_inj (s t : string) :
  list_ascii_of_string s = list_ascii_of_string t → s = t.
Proof.
  intros H. apply (f_equal string_of_list_ascii) in H.
  by rewrite !string_of_list_ascii_of_string in H.
Qed.

(** A fixed suffix can be cancelled, whatever the interpolated ids. *)
Lemma string_app_inj_r (s1 s2 t : string) : s1 +:+ t = s2 +:+ t → s1 = s2.
Proof.
  intros H. apply (f_equal list_ascii_of_string) in H.
  rewrite !list_ascii_of_string_app in H.
  apply app_inj_2 in H as [H _]; [|done].
  by apply list_ascii_of_string_inj.
Qed.

(** Two topics that end differently are different: compare them from
    the last character backwards. *)
Ltac topic_clash H :=
  apply (f_equal list_ascii_of_string) in H;
  rewrite !list_ascii_of_string_app in H;
  apply (f_equal reverse) in H;
  rewrite !reverse_app in H;
  simpl in H; discriminate H.

Ltac same_kind H :=
  apply (inj (String.app _)) in H;
  try apply string_app_inj_r in H;
  apply uuid_str_inj in H; by subst.

Lemma channel_for_inj (e1 e2 : Entity) :
  channel_for e1 = channel_for e2 → e1 = e2.
Proof.
  destruct e1, e2; unfold channel_for, get_agent_task_channel,
    get_agent_status_channel, get_agent_heartbeat_channel,
    get_workflow_channel, get_project_channel, get_result_channel,
    get_broadcast_channel, get_coordination_channel;
    intros H; try reflexivity; try discriminate H;
    try (same_kind H);
    apply (inj (String.app _)) in H; topic_clash H.
Qed.

Example uuid_str_agent_a :
  uuid_str Fixtures.agent_a = "12345678-1234-5678-1234-567812345678".
Proof. reflexivity. Qed.

Example agent_task_channel_agent_b :
  get_agent_task_channel Fixtures.agent_b
  = "agent:00000000-0000-0000-0000-00000000002a:tasks".
Proof. reflexivity. Qed.

(** C1. Channel naming is deterministic and injective across (kind, id)
    pairs: the same entity always gets the same topic; two entities of
    one kind with distinct ids get distinct topics; and entities of
    distinct kinds get distinct topics whatever their ids, equal or
    not. *)
Theorem channel_naming_deterministic_injective (e1 e2 : Entity) :
  (e1 = e2 → channel_for e1 = channel_for e2) ∧
  (kind e1 = kind e2 → raw_id e1 ≠ raw_id e2 →
     channel_for e1 ≠ channel_for e2) ∧
  (kind e1 ≠ kind e2 → channel_for e1 ≠ channel_for e2).
Proof.
  split; [by intros ->|]. split.
  - intros _ Hid Heq. apply channel_for_inj in Heq. by subst.
  - intros Hkind Heq. apply channel_for_inj in Heq. by subst.
Qed.

Lemma channel_naming_deterministic_injective_witness :
  channel_for (AgentTasks Fixtures.agent_a)
    = channel_for (AgentTasks Fixtures.agent_a) ∧
  channel_for (AgentTasks Fixtures.agent_a)
    ≠ channel_for (AgentTasks Fixtures.agent_b) ∧
  channel_for (AgentTasks Fixtures.agent_a)
    ≠ channel_for (WorkflowUpdates Fixtures.agent_a).
Proof.
  split; [|split].
  - apply (proj1 (channel_naming_deterministic_injective
             (AgentTasks Fixtures.agent_a) (AgentTasks Fixtures.agent_a))).
    reflexivity.
  - apply (proj1 (proj2 (channel_naming_deterministic_injective
             (AgentTasks Fixtures.agent_a) (AgentTasks Fixtures.agent_b)))).
    + reflexivity.
    + simpl. intros H. injection H as H. discriminate H.
  - apply (proj2 (proj2 (channel_naming_deterministic_injective
             (AgentTasks Fixtures.agent_a) (WorkflowUpdates Fixtures.agent_a)))).
    simpl. discriminate.
Defined.

End ChannelManagerFacts.

(** ** Subscription registry *)
Module ChannelSubscriptionManagerFacts.
Import ChannelSubscriptionManager.

Lemma list_remove_None x l : list_remove x l = None ↔ x ∉ l.
Proof.
  induction l as [|y l IH]; simpl.
  - split; [intros _; apply not_elem_of_nil|done].
  - destruct (decide (x = y)) as [->|Hne].
    + split; [done|]. intros H. exfalso. apply H, elem_of_cons. by left.
    + rewrite fmap_None, IH, not_elem_of_cons. tauto.
Qed.

Lemma list_remove_Some_elem x l l' : list_remove x l = Some l' → x ∈ l.
Proof.
  intros H. destruct (decide (x ∈ l)) as [|Hnot]; [done|].
  apply list_remove_None in Hnot. congruence.
Qed.

Lemma list_remove_subseteq x l l' : list_remove x l = Some l' → l' ⊆ l.
Proof.
  revert l'. induction l as [|y l IH]; intros l'; simpl; [done|].
  destruct (decide (x = y)) as [->|Hne].
  - intros [= <-] z Hz. apply elem_of_cons. by right.
  - destruct (list_remove x l) as [k|] eqn:Hk; simpl; [|done].
    intros [= <-] z Hz. specialize (IH k eq_refl).
    apply elem_of_cons in Hz as [->|Hz]; apply elem_of_cons; [by left|].
    right. by apply IH.
Qed.

Lemma list_remove_NoDup x l l' :
  NoDup l → list_remove x l = Some l' → NoDup l'.
Proof.
  intros Hnd. revert l'. induction Hnd as [|y l Hy Hnd IH]; intros l'; simpl.
  - done.
  - destruct (decide (x = y)) as [->|Hne]; [by intros [= <-]|].
    destruct (list_remove x l) as [k|] eqn:Hk; simpl; [|done].
    intros [= <-]. constructor; [|by apply IH].
    intros Hin. apply Hy. by apply (list_remove_subseteq _ _ _ Hk).
Qed.

Lemma count_cons x y l :
  count x (y :: l) = (if decide (y = x) then 1 else 0) + count x l.
Proof.
  unfold count. rewrite filter_cons. by destruct (decide (y = x)).
Qed.

Lemma count_not_elem x l : x ∉ l → count x l = 0.
Proof.
  induction l as [|y l IH]; [done|].
  rewrite not_elem_of_cons, count_cons. intros [Hne Hnot].
  destruct (decide (y = x)); [congruence|]. by rewrite IH.
Qed.

Lemma count_NoDup x l : NoDup l → x ∈ l → count x l = 1.
Proof.
  induction 1 as [|y l Hy Hnd IH]; [by intros ?%elem_of_nil|].
  intros Hin. rewrite count_cons. destruct (decide (y = x)) as [->|Hne].
  - by rewrite count_not_elem.
  - rewrite IH; [done|]. apply elem_of_cons in Hin as [->|Hin]; done.
Qed.

(** *** [subscribe] *)

(** The list [subscribe] leaves under the channel. *)
Lemma subscribe_lookup s c (m : Subscriptions) :
  subscribe s c m !! c
  = Some match m !! c with
         | Some l => if decide (s ∈ l) then l else l ++ [s]
         | None => [s]
         end.
Proof.
  unfold subscribe. destruct (m !! c) as [l|] eqn:Hl.
  - rewrite Hl. destruct (decide (s ∈ l)); [done|]. by rewrite lookup_insert_eq.
  - rewrite lookup_insert_eq. simpl. by rewrite lookup_insert_eq.
Qed.

Lemma subscribe_lookup_ne s c c' (m : Subscriptions) :
  c ≠ c' → subscribe s c m !! c' = m !! c'.
Proof.
  intros Hne. unfold subscribe. destruct (m !! c) as [l|] eqn:Hl.
  - rewrite Hl. destruct (decide (s ∈ l)); [done|]. by rewrite lookup_insert_ne.
  - rewrite lookup_insert_eq. simpl. by rewrite !lookup_insert_ne.
Qed.

Lemma subscribe_subscribed s c (m : Subscriptions) l :
  m !! c = Some l → s ∈ l → subscribe s c m = m.
Proof.
  intros Hl Hin. unfold subscribe. rewrite Hl. simpl. rewrite Hl.
  by rewrite decide_True.
Qed.

Lemma subscribe_is_subscribed s c (m : Subscriptions) :
  ∃ l, subscribe s c m !! c = Some l ∧ s ∈ l.
Proof.
  eexists. split; [apply subscribe_lookup|].
  destruct (m !! c) as [l|]; [|set_solver].
  destruct (decide (s ∈ l)); set_solver.
Qed.

Lemma subscribe_idem s c (m : Subscriptions) :
  subscribe s c (subscribe s c m) = subscribe s c m.
Proof.
  destruct (subscribe_is_subscribed s c m) as (l & Hl & Hin).
  by apply (subscribe_subscribed _ _ _ l).
Qed.

(** *** [unsubscribe] *)

Lemma unsubscribe_lookup s c (m : Subscriptions) :
  unsubscribe s c m !! c = m !! c ≫= after_removal s.
Proof.
  unfold unsubscribe, after_removal.
  destruct (m !! c) as [l|] eqn:Hl; simpl; [|done].
  destruct (list_remove s l) as [[|x k]|]; simpl.
  - by rewrite lookup_delete_eq.
  - by rewrite lookup_insert_eq.
  - done.
Qed.

Lemma unsubscribe_lookup_ne s c c' (m : Subscriptions) :
  c ≠ c' → unsubscribe s c m !! c' = m !! c'.
Proof.
  intros Hne. unfold unsubscribe.
  destruct (m !! c) as [l|] eqn:Hl; [|done].
  destruct (list_remove s l) as [[|x k]|]; [| |done].
  - by rewrite lookup_delete_ne, lookup_insert_ne.
  - by rewrite lookup_insert_ne.
Qed.

(** *** [clear_subscriber] *)

Lemma foldl_delete_lookup (cl : list string) (m : Subscriptions) k :
  foldl (λ subs ch, delete ch subs) m cl !! k
  = if decide (k ∈ cl) then None else m !! k.
Proof.
  revert m. induction cl as [|c cl IH]; intros m; simpl foldl.
  - destruct (decide (k ∈ [])) as [H|]; [by apply elem_of_nil in H|done].
  - rewrite IH. destruct (decide (k ∈ cl)) as [Hin|Hnot].
    + rewrite decide_True; [done|]. apply elem_of_cons. by right.
    + destruct (decide (k = c)) as [->|Hne].
      * rewrite decide_True; [|apply elem_of_cons; by left].
        apply lookup_delete_eq.
      * rewrite decide_False.
        -- by apply lookup_delete_ne.
        -- rewrite elem_of_cons. tauto.
Qed.

(** The first loop, over any duplicate-free list of items: keys
    outside the list are untouched, a key in the list loses the
    subscriber, and a channel is noted exactly when that emptied it. *)
Lemma clear_step_spec s (m : Subscriptions) cl c0 l0 m0 cl0 :
  clear_step s (m, cl) (c0, l0) = (m0, cl0) →
  (∀ ch, ch ≠ c0 → m0 !! ch = m !! ch) ∧
  m0 !! c0 = match list_remove s l0 with
             | Some l' => Some l'
             | None => m !! c0
             end ∧
  (∀ ch, ch ∈ cl0 ↔ ch ∈ cl ∨ (ch = c0 ∧ list_remove s l0 = Some [])).
Proof.
  unfold clear_step.
  destruct (list_remove s l0) as [[|x k]|]; intros [= <- <-].
  - split; [by intros; rewrite lookup_insert_ne|].
    split; [by rewrite lookup_insert_eq|].
    intros ch. rewrite elem_of_app, list_elem_of_singleton. tauto.
  - split; [by intros; rewrite lookup_insert_ne|].
    split; [by rewrite lookup_insert_eq|].
    intros ch. split; [by left|]. by intros [?|[_ [=]]].
  - split; [done|]. split; [done|].
    intros ch. split; [by left|]. by intros [?|[_ [=]]].
Qed.

Lemma clear_fold_spec s (items : list (string * list string))
    (m : Subscriptions) (cl : list string) m1 cl1 :
  NoDup items.*1 →
  foldl (clear_step s) (m, cl) items = (m1, cl1) →
  (∀ ch, ch ∉ items.*1 → m1 !! ch = m !! ch) ∧
  (∀ ch l, (ch, l) ∈ items →
     m1 !! ch = match list_remove s l with
                | Some l' => Some l'
                | None => m !! ch
                end) ∧
  (∀ ch, ch ∈ cl1 ↔
     ch ∈ cl ∨ ∃ l, (ch, l) ∈ items ∧ list_remove s l = Some []).
Proof.
  revert m cl. induction items as [|[c0 l0] items IH]; intros m cl Hnd Hfold.
  - injection Hfold as <- <-.
    split; [done|]. split; [by intros ?? ?%elem_of_nil|].
    intros ch. split; [by left|]. by intros [?|(l & []%elem_of_nil & _)].
  - apply NoDup_cons in Hnd as [Hc0 Hnd].
    change (foldl (clear_step s) (m, cl) ((c0, l0) :: items))
      with (foldl (clear_step s) (clear_step s (m, cl) (c0, l0)) items)
      in Hfold.
    destruct (clear_step s (m, cl) (c0, l0)) as [m0 cl0] eqn:Hstep.
    apply clear_step_spec in Hstep as (Hacc1 & Hacc0 & Hacc2).
    destruct (IH m0 cl0 Hnd Hfold) as (Hout & Hin & Hcl).
    split; [|split].
    + intros ch [Hne Hnot]%not_elem_of_cons.
      rewrite Hout by done. by apply Hacc1.
    + intros ch l [[= -> ->]|Hmem]%elem_of_cons.
      * by rewrite Hout.
      * rewrite (Hin _ _ Hmem).
        destruct (list_remove s l); [done|]. apply Hacc1.
        intros ->. apply Hc0. apply list_elem_of_fmap. by exists (c0, l).
    + intros ch. rewrite Hcl, Hacc2. split.
      * intros [[?|[-> ?]]|(l & ? & ?)]; [by left|right..].
        -- exists l0. split; [apply elem_of_cons; by left|done].
        -- exists l. split; [apply elem_of_cons; by right|done].
      * intros [?|(l & [[= -> ->]|?]%elem_of_cons & ?)].
        -- by left; left.
        -- left. by right.
        -- right. by exists l.
Qed.

Lemma clear_subscriber_lookup s (m : Subscriptions) ch :
  clear_subscriber s m !! ch = m !! ch ≫= after_removal s.
Proof.
  unfold clear_subscriber.
  destruct (foldl (clear_step s) (m, []) (map_to_list m))
    as [m1 cl1] eqn:Hfold.
  apply clear_fold_spec in Hfold as (Hout & Hin & Hcl);
    [|apply NoDup_fst_map_to_list].
  rewrite foldl_delete_lookup.
  destruct (m !! ch) as [l|] eqn:Hl; simpl.
  - assert (Hmem : (ch, l) ∈ map_to_list m) by by apply elem_of_map_to_list.
    rewrite (Hin _ _ Hmem), Hl. unfold after_removal.
    destruct (decide (ch ∈ cl1)) as [Hc|Hc].
    + apply Hcl in Hc as [[]%elem_of_nil|(l' & Hl' & Hrm)].
      apply elem_of_map_to_list in Hl'. assert (l' = l) as -> by congruence.
      by rewrite Hrm.
    + destruct (list_remove s l) as [[|x k]|] eqn:Hrm; [|done..].
      exfalso. apply Hc, Hcl. right. by exists l.
  - destruct (decide (ch ∈ cl1)); [done|].
    rewrite Hout, Hl; [done|].
    intros ([c' l'] & -> & Hmem%elem_of_map_to_list)%list_elem_of_fmap.
    simpl in *. congruence.
Qed.

(** *** The two invariants *)

Lemma after_removal_nonempty s l l' : after_removal s l = Some l' → l ≠ [] → l' ≠ [].
Proof.
  unfold after_removal.
  destruct (list_remove s l) as [[|x k]|]; intros [= <-]; done.
Qed.

Lemma after_removal_NoDup s l l' : after_removal s l = Some l' → NoDup l → NoDup l'.
Proof.
  unfold after_removal.
  destruct (list_remove s l) as [[|x k]|] eqn:Hrm; intros [= <-] Hnd; [|done].
  by apply (list_remove_NoDup s l).
Qed.

Lemma subscribe_no_empty s c (m : Subscriptions) :
  no_empty_channel m → no_empty_channel (subscribe s c m).
Proof.
  intros Hinv ch l. destruct (decide (c = ch)) as [<-|Hne].
  - rewrite subscribe_lookup. intros [= <-].
    destruct (m !! c) as [k|] eqn:Hk; [|done].
    destruct (decide (s ∈ k)); [by apply (Hinv c)|].
    by intros [_ [=]]%app_eq_nil.
  - rewrite subscribe_lookup_ne by done. apply Hinv.
Qed.

Lemma unsubscribe_no_empty s c (m : Subscriptions) :
  no_empty_channel m → no_empty_channel (unsubscribe s c m).
Proof.
  intros Hinv ch l. destruct (decide (c = ch)) as [<-|Hne].
  - rewrite unsubscribe_lookup.
    destruct (m !! c) as [k|] eqn:Hk; simpl; [|done].
    intros Hl. apply (after_removal_nonempty _ _ _ Hl). by apply (Hinv c).
  - rewrite unsubscribe_lookup_ne by done. apply Hinv.
Qed.

Lemma clear_subscriber_no_empty s (m : Subscriptions) :
  no_empty_channel m → no_empty_channel (clear_subscriber s m).
Proof.
  intros Hinv ch l. rewrite clear_subscriber_lookup.
  destruct (m !! ch) as [k|] eqn:Hk; simpl; [|done].
  intros Hl. apply (after_removal_nonempty _ _ _ Hl). by apply (Hinv ch).
Qed.

Lemma subscribe_no_duplicate s c (m : Subscriptions) :
  no_duplicate_subscriber m → no_duplicate_subscriber (subscribe s c m).
Proof.
  intros Hinv ch l. destruct (decide (c = ch)) as [<-|Hne].
  - rewrite subscribe_lookup. intros [= <-].
    destruct (m !! c) as [k|] eqn:Hk; [|apply NoDup_singleton].
    destruct (decide (s ∈ k)) as [|Hnot]; [by apply (Hinv c)|].
    apply NoDup_app. split; [by apply (Hinv c)|].
    split; [|apply NoDup_singleton].
    intros x Hx ->%list_elem_of_singleton. done.
  - rewrite subscribe_lookup_ne by done. apply Hinv.
Qed.

Lemma unsubscribe_no_duplicate s c (m : Subscriptions) :
  no_duplicate_subscriber m → no_duplicate_subscriber (unsubscribe s c m).
Proof.
  intros Hinv ch l. destruct (decide (c = ch)) as [<-|Hne].
  - rewrite unsubscribe_lookup.
    destruct (m !! c) as [k|] eqn:Hk; simpl; [|done].
    intros Hl. apply (after_removal_NoDup _ _ _ Hl). by apply (Hinv c).
  - rewrite unsubscribe_lookup_ne by done. apply Hinv.
Qed.

Lemma clear_subscriber_no_duplicate s (m : Subscriptions) :
  no_duplicate_subscriber m → no_duplicate_subscriber (clear_subscriber s m).
Proof.
  intros Hinv ch l. rewrite clear_subscriber_lookup.
  destruct (m !! ch) as [k|] eqn:Hk; simpl; [|done].
  intros Hl. apply (after_removal_NoDup _ _ _ Hl). by apply (Hinv ch).
Qed.

(** Every registry built through the three methods satisfies both. *)
Lemma run_ops_invariants (ops : list Op) :
  no_empty_channel (run_ops ops) ∧ no_duplicate_subscriber (run_ops ops).
Proof.
  unfold run_ops. induction ops as [|op ops [IH1 IH2]] using rev_ind.
  - split; intros ch l; simpl; unfold init; by rewrite lookup_empty.
  - rewrite foldl_app. simpl. destruct op; simpl; split;
      auto using subscribe_no_empty, unsubscribe_no_empty,
        clear_subscriber_no_empty, subscribe_no_duplicate,
        unsubscribe_no_duplicate, clear_subscriber_no_duplicate.
Qed.

Example subscribe_twice_example :
  get_subscribers "agent:tasks"
    (run_ops [OpSubscribe "agent-001" "agent:tasks";
              OpSubscribe "agent-002" "agent:tasks";
              OpSubscribe "agent-001" "agent:tasks"])
  = ["agent-001"; "agent-002"].
Proof. vm_compute. reflexivity. Qed.

Example unsubscribe_last_example :
  run_ops [OpSubscribe "agent-001" "agent:tasks";
           OpUnsubscribe "agent-001" "agent:tasks"] !! "agent:tasks" = None.
Proof. vm_compute. reflexivity. Qed.

Example clear_subscriber_example :
  let m := run_ops [OpSubscribe "a" "x"; OpSubscribe "b" "x";
                    OpSubscribe "a" "y"; OpClearSubscriber "a"] in
  m !! "x" = Some ["b"] ∧ m !! "y" = None.
Proof. vm_compute. split; reflexivity. Qed.

(** C7. Registry subscribe is idempotent: whatever the registry,
    subscribing twice leaves it as subscribing once does; and in every
    registry built through the registry's methods the subscriber then
    appears exactly once in the channel's subscriber list. *)
Theorem subscribe_idempotent (subscriber_id channel : string) :
  (∀ subscriptions : Subscriptions,
     subscribe subscriber_id channel
       (subscribe subscriber_id channel subscriptions)
     = subscribe subscriber_id channel subscriptions) ∧
  (∀ ops : list Op,
     count subscriber_id
       (get_subscribers channel
          (subscribe subscriber_id channel
             (subscribe subscriber_id channel (run_ops ops)))) = 1 ∧
     count subscriber_id
       (get_subscribers channel
          (subscribe subscriber_id channel (run_ops ops))) = 1).
Proof.
  split; [apply subscribe_idem|]. intros ops. rewrite subscribe_idem.
  assert (count subscriber_id
            (get_subscribers channel
               (subscribe subscriber_id channel (run_ops ops))) = 1);
    [|done].
  destruct (subscribe_is_subscribed subscriber_id channel (run_ops ops))
    as (l & Hl & Hin).
  unfold get_subscribers. rewrite Hl. simpl.
  apply count_NoDup; [|done].
  apply (subscribe_no_duplicate subscriber_id channel (run_ops ops)
           (proj2 (run_ops_invariants ops)) channel l Hl).
Qed.

(** C8. Every registry operation preserves the invariant that a
    channel key present in the index maps to a non-empty subscriber
    list; unsubscribe removes the channel key once its last
    subscriber is removed, and clear_subscriber prunes every channel
    it leaves empty. *)
Theorem no_empty_channel_preserved
    (subscriptions : Subscriptions) (subscriber_id channel : string) :
  no_empty_channel subscriptions →
  no_empty_channel (subscribe subscriber_id channel subscriptions) ∧
  no_empty_channel (unsubscribe subscriber_id channel subscriptions) ∧
  no_empty_channel (clear_subscriber subscriber_id subscriptions) ∧
  (∀ subscribers,
     subscriptions !! channel = Some subscribers →
     list_remove subscriber_id subscribers = Some [] →
     unsubscribe subscriber_id channel subscriptions !! channel = None) ∧
  (∀ ch subscribers,
     subscriptions !! ch = Some subscribers →
     list_remove subscriber_id subscribers = Some [] →
     clear_subscriber subscriber_id subscriptions !! ch = None).
Proof.
  intros Hinv.
  split; [by apply subscribe_no_empty|].
  split; [by apply unsubscribe_no_empty|].
  split; [by apply clear_subscriber_no_empty|].
  split.
  - intros l Hl Hrm. rewrite unsubscribe_lookup, Hl. simpl.
    unfold after_removal. by rewrite Hrm.
  - intros ch l Hl Hrm. rewrite clear_subscriber_lookup, Hl. simpl.
    unfold after_removal. by rewrite Hrm.
Qed.

Lemma no_empty_channel_preserved_witness :
  let subscriptions : Subscriptions :=
    <["x" := ["a"]]> (<["y" := ["a"; "b"]]> ∅) in
  no_empty_channel (subscribe "a" "x" subscriptions) ∧
  no_empty_channel (unsubscribe "a" "x" subscriptions) ∧
  no_empty_channel (clear_subscriber "a" subscriptions) ∧
  unsubscribe "a" "x" subscriptions !! "x" = None ∧
  clear_subscriber "a" subscriptions !! "x" = None.
Proof.
  intros subscriptions.
  assert (Hinv : no_empty_channel subscriptions).
  { intros ch l. unfold subscriptions.
    rewrite lookup_insert. destruct (decide ("x" = ch)); [by intros [= <-]|].
    rewrite lookup_insert. destruct (decide ("y" = ch)); [by intros [= <-]|].
    by rewrite lookup_empty. }
  destruct (no_empty_channel_preserved subscriptions "a" "x" Hinv)
    as (H1 & H2 & H3 & H4 & H5).
  split; [exact H1|]. split; [exact H2|]. split; [exact H3|].
  split.
  - apply (H4 ["a"]); reflexivity.
  - apply (H5 "x" ["a"]); reflexivity.
Defined.

End ChannelSubscriptionManagerFacts.

(** ** Message factory *)
Module MessageFacts.
Import Uuid Py Message.

Lemma create_message_content_lookup mt s (c : Dict) t r md k :
  content (create_message mt s c t r md) !! k
  = match c !! k with
    | Some v => Some v
    | None => stamped s r !! k
    end.
Proof.
  simpl. rewrite lookup_union. destruct (c !! k), (stamped s r !! k); done.
Qed.

Example create_message_heartbeat :
  let p := create_message HEARTBEAT Fixtures.agent_a
             (<["agent_state" := VStr "idle"]> ∅) "agent:A:heartbeat" None None in
  message_type p = "heartbeat" ∧
  content p !! "agent_state" = Some (VStr "idle") ∧
  content p !! "sender_agent_id"
    = Some (VStr "12345678-1234-5678-1234-567812345678") ∧
  content p !! "recipients" = Some (VList []) ∧
  metadata p = ∅ ∧ correlation_id p = None.
Proof. repeat split. Qed.

(** C2, as the code has it. An absent recipient list and an explicit
    empty one are different values of [Message.recipient_agent_ids],
    but [create_message] does not keep them apart: for every sender,
    content, topic and metadata the payload it returns for an absent
    list equals the payload it returns for an explicit empty list, and
    when the caller's content has no "recipients" key of its own both
    carry the empty list under that key. *)
Theorem create_message_absent_recipients_as_empty
    (message_type : MessageType) (sender_agent_id : UUID) (content : Dict)
    (topic : string) (metadata : option Dict) :
  (None : option (list UUID)) ≠ Some [] ∧
  create_message message_type sender_agent_id content topic None metadata
  = create_message message_type sender_agent_id content topic (Some []) metadata ∧
  Message.content
    (create_message message_type sender_agent_id content topic None metadata)
    !! "recipients"
  = Some (default (VList []) (content !! "recipients")).
Proof.
  split; [done|]. split; [reflexivity|].
  rewrite create_message_content_lookup.
  destruct (content !! "recipients"); [done|]. reflexivity.
Qed.

(** C2 as stated fails: here the payload built for an absent recipient
    list cannot be told from the one built for an explicit empty list. *)
Lemma create_message_broadcast_not_distinguishable :
  ¬ (create_message HEARTBEAT Fixtures.agent_a ∅ "agent:A:heartbeat" None None
     ≠ create_message HEARTBEAT Fixtures.agent_a ∅ "agent:A:heartbeat"
         (Some []) None).
Proof. intros H. apply H. reflexivity. Qed.

(** C9. The factory never assigns a correlation id: the payload
    [create_message] returns has none, whatever its arguments. *)
Theorem create_message_no_correlation_id
    (message_type : MessageType) (sender_agent_id : UUID) (content : Dict)
    (topic : string) (recipient_agent_ids : option (list UUID))
    (metadata : option Dict) :
  correlation_id
    (create_message message_type sender_agent_id content topic
       recipient_agent_ids metadata) = None.
Proof. reflexivity. Qed.

(** C10. The payload does not depend on the topic argument: two calls
    that differ only in the topic return equal payloads; the payload
    has no topic field, and the factory puts no "topic" key into the
    content: one is there only if the caller's content has it. *)
Theorem create_message_independent_of_topic
    (message_type : MessageType) (sender_agent_id : UUID) (content : Dict)
    (topic topic' : string) (recipient_agent_ids : option (list UUID))
    (metadata : option Dict) :
  create_message message_type sender_agent_id content topic
    recipient_agent_ids metadata
  = create_message message_type sender_agent_id content topic'
      recipient_agent_ids metadata ∧
  model_dump (create_message message_type sender_agent_id content topic
                recipient_agent_ids metadata) !! "topic" = None ∧
  Message.content
    (create_message message_type sender_agent_id content topic
       recipient_agent_ids metadata) !! "topic"
  = content !! "topic".
Proof.
  split; [reflexivity|]. split.
  - unfold model_dump. by rewrite !lookup_insert_ne, lookup_empty.
  - rewrite create_message_content_lookup.
    destruct (content !! "topic"); [done|].
    unfold stamped. by rewrite !lookup_insert_ne, lookup_empty.
Qed.

End MessageFacts.

(** ** Broker *)
Module MessageQueueFacts.
Import Py MessageQueue.

(** *** Before [connect]: the guard *)

(** Every data operation invoked on a broker that holds no client
    (the state before the first [connect]) fails with the
    not-connected error at once: the broker's fields are unchanged, so
    nothing was connected, and no client call was made, so no part of
    the operation ran. The two generators raise it into their consumer
    before yielding. *)
Lemma never_connected_operations_fail_fast
    (json_loads : string → result PyVal) (json_dumps : Dict → result string)
    (redis : Redis) (url : string) (ps : option PubSub) (tr : list Event)
    (topic pattern key channel : string) (message value : Dict) (ttl : Z) :
  let st := {| self := {| redis_url := url; redis_client := None;
                          pubsub := ps |};
               trace := tr |} in
  publish json_dumps redis topic message st = (Raise not_connected, st) ∧
  subscribe json_loads redis topic st
    = (Ok (mkStream [] (Some not_connected)), st) ∧
  psubscribe json_loads redis pattern st
    = (Ok (mkStream [] (Some not_connected)), st) ∧
  set_message_expiry json_dumps redis key value ttl st
    = (Raise not_connected, st) ∧
  get_message json_loads redis key st = (Raise not_connected, st) ∧
  delete_message redis key st = (Raise not_connected, st) ∧
  list_channels redis st = (Raise not_connected, st) ∧
  get_channel_subscribers redis channel st = (Raise not_connected, st).
Proof. repeat split. Qed.

(** *** [connect] *)

Lemma connect_success (redis : Redis) mq tr c :
  redis _ tr (redis_from_url (redis_url mq)) = Ok c →
  redis _ (tr ++ [event (redis_from_url (redis_url mq))]) (redis_ping c) = Ok tt →
  connect redis (mkState mq tr)
  = (Ok tt,
     mkState {| redis_url := redis_url mq; redis_client := Some c;
                pubsub := pubsub mq |}
             (tr ++ [event (redis_from_url (redis_url mq))]
                 ++ [event (redis_ping c)])).
Proof.
  intros Hurl Hping. unfold connect, try_except, bind, call, get_self,
    set_redis_client. simpl. rewrite Hurl. simpl. rewrite Hping.
  by rewrite <-app_assoc.
Qed.

(** When no client can be built, the error is surfaced and the broker
    keeps the fields it had. *)
Lemma connect_from_url_failure (redis : Redis) mq tr e :
  redis _ tr (redis_from_url (redis_url mq)) = Raise e →
  connect redis (mkState mq tr)
  = (Raise e, mkState mq (tr ++ [event (redis_from_url (redis_url mq))])).
Proof.
  intros Hurl. unfold connect, try_except, bind, call, get_self. simpl.
  by rewrite Hurl.
Qed.

(** When the handshake ping fails, the error is surfaced too, but the
    client built just before stays in [self.redis_client]. *)
Lemma connect_ping_failure (redis : Redis) mq tr c e :
  redis _ tr (redis_from_url (redis_url mq)) = Ok c →
  redis _ (tr ++ [event (redis_from_url (redis_url mq))]) (redis_ping c)
    = Raise e →
  connect redis (mkState mq tr)
  = (Raise e,
     mkState {| redis_url := redis_url mq; redis_client := Some c;
                pubsub := pubsub mq |}
             (tr ++ [event (redis_from_url (redis_url mq))]
                 ++ [event (redis_ping c)])).
Proof.
  intros Hurl Hping. unfold connect, try_except, bind, call, get_self,
    set_redis_client. simpl. rewrite Hurl. simpl. rewrite Hping.
  by rewrite <-app_assoc.
Qed.

(** C3 at the unreachable server: [connect] on a fresh broker raises,
    the broker still holds no client, and [publish] then fails with the
    not-connected error. *)
Example connect_unreachable_stays_disconnected :
  let r := connect Fixtures.unreachable (mkState (init Fixtures.url) []) in
  r.1 = Raise Fixtures.refused ∧
  redis_client (self r.2) = None ∧
  (publish Fixtures.dumps Fixtures.unreachable "agent:a:tasks" ∅ r.2).1
  = Raise not_connected.
Proof. repeat split. Qed.

(** C3 at the failing input. The server refuses the handshake ping:
    [connect] on a fresh broker raises the transport error, yet the
    broker is left holding the client, and the [publish] that follows
    is not stopped by the not-connected guard: it sends the message
    through that client. *)
Theorem connect_failed_ping_keeps_client :
  let r := connect Fixtures.ping_refused (mkState (init Fixtures.url) []) in
  let p := publish Fixtures.dumps Fixtures.ping_refused "agent:a:tasks" ∅ r.2 in
  r.1 = Raise Fixtures.refused ∧
  redis_client (self r.2) = Some Fixtures.client ∧
  p.1 = Ok 0%Z ∧
  p.1 ≠ Raise not_connected ∧
  trace p.2 = trace r.2
              ++ [event (redis_publish Fixtures.client "agent:a:tasks" "{}")].
Proof. repeat split. discriminate. Qed.

(** [disconnect] closes the client and does not forget it either: the
    broker never goes back to holding no client. *)
Lemma disconnect_keeps_client (redis : Redis) (st : State) :
  self (disconnect redis st).2 = self st.
Proof.
  unfold disconnect, bind, get_self, call, ret. simpl.
  destruct (pubsub (self st)) as [ps|]; simpl.
  - destruct (redis unit (trace st) (pubsub_close ps)); simpl; [|done].
    by destruct (redis_client (self st)).
  - by destruct (redis_client (self st)).
Qed.

(** C4 at the failing input. A broker is connected and then
    disconnected. [disconnect] closes the client but leaves it in
    [self.redis_client], and the guard of the data operations tests
    only that field: on the disconnected broker none of the eight
    operations raises the not-connected error, each goes on to send
    its command through the closed client. *)
Theorem disconnected_operations_pass_guard_after_disconnect :
  let opened := connect Fixtures.healthy (mkState (init Fixtures.url) []) in
  let closed := disconnect Fixtures.healthy opened.2 in
  let st := closed.2 in
  let c := Fixtures.client in
  let ps := mkPubSub 0 in
  let sent {A} (r : result A * State) : list Event :=
    drop (length (trace st)) (trace r.2) in
  opened.1 = Ok tt ∧ closed.1 = Ok tt ∧
  trace st = [event (redis_from_url Fixtures.url); event (redis_ping c);
              event (redis_close c)] ∧
  redis_client (self st) = Some c ∧
  (let r := publish Fixtures.dumps Fixtures.healthy "agent:a:tasks" ∅ st in
   r.1 = Ok 0%Z ∧ r.1 ≠ Raise not_connected ∧
   sent r = [event (redis_publish c "agent:a:tasks" "{}")]) ∧
  (let r := subscribe Fixtures.loads Fixtures.healthy "agent:a:tasks" st in
   r.1 = Ok (mkStream [] None) ∧
   r.1 ≠ Ok (mkStream [] (Some not_connected)) ∧
   sent r = [event (redis_pubsub c);
             event (pubsub_subscribe ps "agent:a:tasks");
             event (pubsub_listen ps);
             event (pubsub_unsubscribe ps "agent:a:tasks");
             event (pubsub_close ps)]) ∧
  (let r := psubscribe Fixtures.loads Fixtures.healthy "agent:a:*" st in
   r.1 = Ok (mkStream [] None) ∧
   r.1 ≠ Ok (mkStream [] (Some not_connected)) ∧
   sent r = [event (redis_pubsub c);
             event (pubsub_psubscribe ps "agent:a:*");
             event (pubsub_listen ps);
             event (pubsub_punsubscribe ps "agent:a:*");
             event (pubsub_close ps)]) ∧
  (let r := set_message_expiry Fixtures.dumps Fixtures.healthy "k" ∅ 60 st in
   r.1 = Ok tt ∧ r.1 ≠ Raise not_connected ∧
   sent r = [event (redis_setex c "k" 60 "{}")]) ∧
  (let r := get_message Fixtures.loads Fixtures.healthy "k" st in
   r.1 = Ok VNone ∧ r.1 ≠ Raise not_connected ∧
   sent r = [event (redis_get c "k")]) ∧
  (let r := delete_message Fixtures.healthy "k" st in
   r.1 = Ok false ∧ r.1 ≠ Raise not_connected ∧
   sent r = [event (redis_delete c "k")]) ∧
  (let r := list_channels Fixtures.healthy st in
   r.1 = Ok [] ∧ r.1 ≠ Raise not_connected ∧
   sent r = [event (redis_pubsub_channels c)]) ∧
  (let r := get_channel_subscribers Fixtures.healthy "agent:a:tasks" st in
   r.1 = Ok 0%Z ∧ r.1 ≠ Raise not_connected ∧
   sent r = [event (redis_pubsub_numsub c "agent:a:tasks")]).
Proof. repeat split; discriminate. Qed.

(** *** The TTL store *)

Lemma set_message_expiry_run json_dumps (redis : Redis) mq c tr key value ttl js :
  redis_client mq = Some c →
  json_dumps value = Ok js →
  set_message_expiry json_dumps redis key value ttl (mkState mq tr)
  = (redis _ tr (redis_setex c key ttl js),
     mkState mq (tr ++ [event (redis_setex c key ttl js)])).
Proof.
  intros Hc Hjs. unfold set_message_expiry, require_client, try_except, bind,
    get_self, lift, call. simpl. rewrite Hc. simpl. rewrite Hjs. simpl.
  by destruct (redis unit tr (redis_setex c key ttl js)).
Qed.

Lemma get_message_failure json_loads (redis : Redis) mq c tr key e :
  redis_client mq = Some c →
  redis _ tr (redis_get c key) = Raise e →
  get_message json_loads redis key (mkState mq tr)
  = (Ok VNone, mkState mq (tr ++ [event (redis_get c key)])).
Proof.
  intros Hc He. unfold get_message, require_client, try_except, bind,
    get_self, call, ret. simpl. rewrite Hc. simpl. by rewrite He.
Qed.

Lemma delete_message_failure (redis : Redis) mq c tr key e :
  redis_client mq = Some c →
  redis _ tr (redis_delete c key) = Raise e →
  delete_message redis key (mkState mq tr)
  = (Ok false, mkState mq (tr ++ [event (redis_delete c key)])).
Proof.
  intros Hc He. unfold delete_message, require_client, try_except, bind,
    get_self, call, ret. simpl. rewrite Hc. simpl. by rewrite He.
Qed.

(** C5, as the code has it. On a connected broker a failed
    [set_message_expiry] surfaces the failure to the caller as an
    error; a failed [get_message] is caught and answered with [None],
    and a failed [delete_message] is caught and answered with [False].
    None of the three retries: the store command is sent once. *)
Theorem ttl_store_failures
    (json_loads : string → result PyVal) (json_dumps : Dict → result string)
    (redis : Redis) (mq : MessageQueue) (c : RedisClient) (tr : list Event)
    (key : string) (value : Dict) (ttl : Z) (e : PyExc) :
  redis_client mq = Some c →
  (∀ js, json_dumps value = Ok js →
     redis _ tr (redis_setex c key ttl js) = Raise e →
     set_message_expiry json_dumps redis key value ttl (mkState mq tr)
     = (Raise e, mkState mq (tr ++ [event (redis_setex c key ttl js)]))) ∧
  (redis _ tr (redis_get c key) = Raise e →
     get_message json_loads redis key (mkState mq tr)
     = (Ok VNone, mkState mq (tr ++ [event (redis_get c key)]))) ∧
  (redis _ tr (redis_delete c key) = Raise e →
     delete_message redis key (mkState mq tr)
     = (Ok false, mkState mq (tr ++ [event (redis_delete c key)]))).
Proof.
  intros Hc. split; [|split].
  - intros js Hjs He. rewrite (set_message_expiry_run _ _ _ c _ _ _ _ js) by done.
    by rewrite He.
  - by apply get_message_failure.
  - by apply delete_message_failure.
Qed.

Lemma ttl_store_failures_witness :
  let st := mkState Fixtures.connected [] in
  set_message_expiry Fixtures.dumps Fixtures.store_down "k" ∅ 1 st
  = (Raise Fixtures.refused,
     mkState Fixtures.connected
       [event (redis_setex Fixtures.client "k" 1 "{}")]) ∧
  get_message Fixtures.loads Fixtures.store_down "k" st
  = (Ok VNone,
     mkState Fixtures.connected [event (redis_get Fixtures.client "k")]) ∧
  delete_message Fixtures.store_down "k" st
  = (Ok false,
     mkState Fixtures.connected [event (redis_delete Fixtures.client "k")]).
Proof.
  intros st.
  destruct (ttl_store_failures Fixtures.loads Fixtures.dumps
              Fixtures.store_down Fixtures.connected Fixtures.client []
              "k" ∅ 1 Fixtures.refused eq_refl) as (Hset & Hget & Hdel).
  split; [|split].
  - apply (Hset "{}"); reflexivity.
  - apply Hget. reflexivity.
  - apply Hdel. reflexivity.
Defined.

(** C5 as stated fails: the store's [GET] fails, and [get_message]
    raises nothing. *)
Lemma get_message_failure_not_surfaced :
  let st := mkState Fixtures.connected [] in
  Fixtures.store_down _ (trace st) (redis_get Fixtures.client "k")
    = Raise Fixtures.refused ∧
  ¬ (∃ e, (get_message Fixtures.loads Fixtures.store_down "k" st).1 = Raise e).
Proof. split; [reflexivity|]. intros [e He]. discriminate He. Qed.

(** *** Subscription streams *)

Section Streams.
Variable json_loads : string → result PyVal.







(** On a connected broker whose session works, the generators give
    their consumer what the loop makes of the delivered messages. *)
Lemma subscribe_run (redis : Redis) mq c ps tr topic messages :
  redis_client mq = Some c →
  session_delivers redis c ps messages →
  (subscribe json_loads redis topic (mkState mq tr)).1
  = Ok (subscribe_loop json_loads messages).
Proof.
  intros Hc Henv. unfold subscribe, generator, generator_finally,
    require_client, try_except, attempt, bind, get_self, call, ret.
  simpl. rewrite Hc. simpl.
  destruct (Henv tr) as (-> & _). simpl.
  destruct (Henv (tr ++ [event (redis_pubsub c)]))
    as (_ & Hsub & _). rewrite Hsub. simpl.
  match goal with |- context [redis _ ?t (pubsub_listen ps)] =>
    destruct (Henv t) as (_ & _ & _ & -> & _) end. simpl.
  match goal with |- context [redis _ ?t (pubsub_unsubscribe ps topic)] =>
    destruct (Henv t) as (_ & _ & _ & _ & Hun & _); rewrite Hun end. simpl.
  match goal with |- context [redis _ ?t (pubsub_close ps)] =>
    destruct (Henv t) as (_ & _ & _ & _ & _ & _ & ->) end. simpl.
  unfold then_ending. by destruct (subscribe_loop json_loads messages) as [? []].
Qed.

Lemma psubscribe_run (redis : Redis) mq c ps tr pattern messages :
  redis_client mq = Some c →
  session_delivers redis c ps messages →
  (psubscribe json_loads redis pattern (mkState mq tr)).1
  = Ok (psubscribe_loop json_loads messages).
Proof.
  intros Hc Henv. unfold psubscribe, generator, generator_finally,
    require_client, try_except, attempt, bind, get_self, call, ret.
  simpl. rewrite Hc. simpl.
  destruct (Henv tr) as (-> & _). simpl.
  destruct (Henv (tr ++ [event (redis_pubsub c)]))
    as (_ & _ & Hsub & _). rewrite Hsub. simpl.
  match goal with |- context [redis _ ?t (pubsub_listen ps)] =>
    destruct (Henv t) as (_ & _ & _ & -> & _) end. simpl.
  match goal with |- context [redis _ ?t (pubsub_punsubscribe ps pattern)] =>
    destruct (Henv t) as (_ & _ & _ & _ & _ & Hun & _); rewrite Hun end. simpl.
  match goal with |- context [redis _ ?t (pubsub_close ps)] =>
    destruct (Henv t) as (_ & _ & _ & _ & _ & _ & ->) end. simpl.
  unfold then_ending. by destruct (psubscribe_loop json_loads messages) as [? []].
Qed.

End Streams.




End MessageQueueFacts.

(** ** Wildcard patterns and the topic router *)
Module TopicRouterFacts.
Import Uuid UuidFacts ChannelManager ChannelManagerFacts TopicRouter.

Lemma prefix_app (s r : string) : String.prefix s (s +:+ r) = true.
Proof.
  induction s as [|c s IH]; simpl; [by destruct r|].
  by destruct (ascii_dec c c).
Qed.

Lemma prefix_inv (s t : string) :
  String.prefix s t = true → ∃ r, t = s +:+ r.
Proof.
  revert t. induction s as [|c s IH]; intros t; [by exists t|].
  destruct t as [|d t]; simpl; [done|].
  destruct (ascii_dec c d) as [->|]; [|done].
  intros [r ->]%IH. by exists r.
Qed.

Lemma substring_app_l (s r : string) : substring 0 (String.length s) (s +:+ r) = s.
Proof.
  induction s as [|c s IH]; simpl; [by destruct r|]. by rewrite IH.
Qed.

Lemma string_length_app (s r : string) :
  String.length (s +:+ r) = String.length s + String.length r.
Proof. induction s as [|c s IH]; simpl; [done|]. by rewrite IH. Qed.

Lemma list_ascii_of_string_length (s : string) :
  length (list_ascii_of_string s) = String.length s.
Proof. induction s as [|c s IH]; simpl; [done|]. by rewrite IH. Qed.

Lemma stem_star (s : string) : stem (s +:+ "*") = s.
Proof.
  unfold stem. rewrite string_length_app. simpl.
  replace (String.length s + 1 - 1) with (String.length s) by lia.
  apply substring_app_l.
Qed.

Lemma string_app_assoc (a b c : string) : (a +:+ b) +:+ c = a +:+ (b +:+ c).
Proof.
  induction a as [|x a IH]; [done|].
  change (String x ((a +:+ b) +:+ c) = String x (a +:+ b +:+ c)).
  by rewrite IH.
Qed.

(** Two topics that continue ids of the same length after the same
    head agree on the ids. *)
Lemma uuid_segment_inj (u v : UUID) (r r' : string) :
  uuid_str u +:+ r = uuid_str v +:+ r' → u = v ∧ r = r'.
Proof.
  intros H. assert (H' := H).
  apply (f_equal list_ascii_of_string) in H.
  rewrite !list_ascii_of_string_app in H.
  apply app_inj_1 in H as [Hu Hr].
  - apply list_ascii_of_string_inj, uuid_str_inj in Hu. subst.
    split; [done|]. by apply list_ascii_of_string_inj.
  - by rewrite !list_ascii_of_string_length, !uuid_str_length.
Qed.

Lemma covers_star (s topic : string) :
  covers (s +:+ "*") topic = true ↔ ∃ r, topic = s +:+ r.
Proof.
  unfold covers. rewrite stem_star. split; [apply prefix_inv|].
  intros [r ->]. apply prefix_app.
Qed.

Lemma agent_pattern_stem a :
  get_agent_pattern a = ("agent:" +:+ uuid_str a +:+ ":") +:+ "*".
Proof.
  unfold get_agent_pattern. by rewrite !string_app_assoc.
Qed.

Lemma project_pattern_stem p :
  get_project_pattern p = ("project:" +:+ uuid_str p +:+ ":") +:+ "*".
Proof.
  unfold get_project_pattern. by rewrite !string_app_assoc.
Qed.

Lemma workflow_pattern_stem w :
  get_workflow_pattern w = ("workflow:" +:+ uuid_str w +:+ ":") +:+ "*".
Proof.
  unfold get_workflow_pattern. by rewrite !string_app_assoc.
Qed.

(** From [head ++ id ++ tail = (head ++ id' ++ ":") ++ r] to [id = id']. *)
Ltac same_stem H :=
  rewrite !string_app_assoc in H;
  apply (inj (String.app _)) in H;
  apply uuid_segment_inj in H; destruct H as [H _]; subst.

Ltac unfold_channels :=
  unfold channel_for, get_agent_task_channel, get_agent_status_channel,
    get_agent_heartbeat_channel, get_workflow_channel, get_project_channel,
    get_result_channel, get_broadcast_channel, get_coordination_channel.

Ltac unfold_channels_in H :=
  unfold channel_for, get_agent_task_channel, get_agent_status_channel,
    get_agent_heartbeat_channel, get_workflow_channel, get_project_channel,
    get_result_channel, get_broadcast_channel, get_coordination_channel in H.

(** X1. A wildcard pattern names exactly the channels of its entity:
    a channel name begins with the stem of [get_agent_pattern a] just
    when it is the tasks, status or heartbeat channel of agent [a];
    with the stem of [get_project_pattern p] just when it is the
    events channel of project [p]; with the stem of
    [get_workflow_pattern w] just when it is the updates channel of
    workflow [w]. No channel of another entity, of another kind, or
    fixed channel falls under it. *)
Theorem patterns_cover_their_entity (u : UUID) (e : Entity) :
  (covers (get_agent_pattern u) (channel_for e) = true ↔
     e = AgentTasks u ∨ e = AgentStatus u ∨ e = AgentHeartbeat u) ∧
  (covers (get_project_pattern u) (channel_for e) = true ↔
     e = ProjectEvents u) ∧
  (covers (get_workflow_pattern u) (channel_for e) = true ↔
     e = WorkflowUpdates u).
Proof.
  rewrite agent_pattern_stem, project_pattern_stem, workflow_pattern_stem.
  rewrite !covers_star. split; [|split]; split.
  - intros [r H]. destruct e; unfold_channels_in H;
      try discriminate H; same_stem H; auto.
  - intros [-> | [-> | ->]]; unfold_channels.
    + exists "tasks". by rewrite !string_app_assoc.
    + exists "status". by rewrite !string_app_assoc.
    + exists "heartbeat". by rewrite !string_app_assoc.
  - intros [r H]. destruct e; unfold_channels_in H;
      try discriminate H; same_stem H; auto.
  - intros ->. unfold_channels. exists "events". by rewrite !string_app_assoc.
  - intros [r H]. destruct e; unfold_channels_in H;
      try discriminate H; same_stem H; auto.
  - intros ->. unfold_channels. exists "updates". by rewrite !string_app_assoc.
Qed.

Example agent_pattern_covers_example :
  covers (get_agent_pattern Fixtures.agent_a)
    (get_agent_heartbeat_channel Fixtures.agent_a) = true ∧
  covers (get_agent_pattern Fixtures.agent_a)
    (get_agent_task_channel Fixtures.agent_b) = false.
Proof. split; reflexivity. Qed.

Lemma route_target (ev : DomainEvent) : route ev = channel_for (target ev).
Proof. by destruct ev. Qed.

(** X2. The router keeps events apart: two domain events get the same
    topic only when they are the same kind of event about the same
    entity (for a task assignment the agent: the task id plays no
    part); and no router function ever returns the
    [coordination:requests] channel or a heartbeat channel:
    coordination requests go to the project's events channel. *)
Theorem router_topics (ev ev' : DomainEvent) (agent_id : UUID) :
  (route ev = route ev' ↔ target ev = target ev') ∧
  route ev ≠ get_coordination_channel ∧
  route ev ≠ get_agent_heartbeat_channel agent_id.
Proof.
  rewrite !route_target. split; [|split].
  - split; [apply channel_for_inj|by intros ->].
  - intros H. apply (channel_for_inj _ Coordination) in H. by destruct ev.
  - intros H. apply (channel_for_inj _ (AgentHeartbeat agent_id)) in H.
    by destruct ev.
Qed.

End TopicRouterFacts.

(** ** More on the subscription registry *)
Module RegistryFacts.
Import ChannelSubscriptionManager ChannelSubscriptionManagerFacts.

Lemma is_subscribed_true s c (m : Subscriptions) :
  is_subscribed s c m = true ↔ ∃ l, m !! c = Some l ∧ s ∈ l.
Proof.
  unfold is_subscribed. rewrite bool_decide_eq_true.
  destruct (m !! c) as [l|]; simpl.
  - split; [by exists l|]. by intros (? & [= <-] & ?).
  - split; [by intros ?%elem_of_nil|]. by intros (? & [=] & _).
Qed.

Lemma is_subscribed_false s c (m : Subscriptions) l :
  m !! c = Some l → is_subscribed s c m = false ↔ s ∉ l.
Proof.
  intros Hl. unfold is_subscribed. rewrite Hl. simpl.
  by rewrite bool_decide_eq_false.
Qed.

Lemma list_remove_elem_other x y l l' :
  list_remove x l = Some l' → y ≠ x → y ∈ l' ↔ y ∈ l.
Proof.
  revert l'. induction l as [|z l IH]; intros l'; simpl; [done|].
  destruct (decide (x = z)) as [->|Hne].
  - intros [= <-] Hy. rewrite elem_of_cons. split; [by right|].
    by intros [?|?].
  - destruct (list_remove x l) as [k|] eqn:Hk; simpl; [|done].
    intros [= <-] Hy. rewrite !elem_of_cons, (IH k eq_refl Hy). done.
Qed.

Lemma list_remove_not_elem x l l' :
  NoDup l → list_remove x l = Some l' → x ∉ l'.
Proof.
  intros Hnd. revert l'. induction Hnd as [|z l Hz Hnd IH]; intros l'; simpl.
  - done.
  - destruct (decide (x = z)) as [->|Hne]; [by intros [= <-]|].
    destruct (list_remove x l) as [k|] eqn:Hk; simpl; [|done].
    intros [= <-]. rewrite not_elem_of_cons. split; [done|]. by apply IH.
Qed.

Lemma filter_other_id (x : string) (l : list string) :
  x ∉ l → filter (λ y, y ≠ x) l = l.
Proof.
  induction l as [|z l IH]; [done|].
  rewrite not_elem_of_cons. intros [Hne Hnot].
  rewrite filter_cons, decide_True by done. by rewrite IH.
Qed.

Lemma list_remove_filter x l l' :
  NoDup l → list_remove x l = Some l' → l' = filter (λ y, y ≠ x) l.
Proof.
  intros Hnd. revert l'. induction Hnd as [|z l Hz Hnd IH]; intros l'; simpl.
  - done.
  - rewrite filter_cons. destruct (decide (x = z)) as [->|Hne].
    + intros [= <-]. rewrite decide_False by (by intros ?).
      by rewrite filter_other_id.
    + destruct (list_remove x l) as [k|] eqn:Hk; simpl; [|done].
      intros [= <-]. rewrite decide_True by done. by rewrite (IH k).
Qed.

Lemma list_remove_app_last x (l : list string) :
  x ∉ l → list_remove x (l ++ [x]) = Some l.
Proof.
  induction l as [|z l IH]; simpl.
  - intros _. by rewrite decide_True.
  - rewrite not_elem_of_cons. intros [Hne Hnot].
    rewrite decide_False by done. by rewrite IH.
Qed.

(** X3. [subscribe] adds exactly one pairing: afterwards
    [is_subscribed] holds for the pair subscribed and for every pair
    it held for before, and for no other. *)
Theorem subscribe_adds_one_pairing (s c s' c' : string) (m : Subscriptions) :
  is_subscribed s' c' (subscribe s c m)
  = is_subscribed s' c' m || (bool_decide (s' = s) && bool_decide (c' = c)).
Proof.
  apply eq_true_iff_eq.
  rewrite orb_true_iff, andb_true_iff, !bool_decide_eq_true, !is_subscribed_true.
  destruct (decide (c' = c)) as [->|Hc].
  - rewrite subscribe_lookup. destruct (m !! c) as [l|].
    + destruct (decide (s ∈ l)) as [Hin|Hnot].
      * split; [by left|]. intros [?|[-> _]]; [done|]. by exists l.
      * split.
        -- intros (k & [= <-] & [? | ->%list_elem_of_singleton]%elem_of_app).
           ++ left. by exists l.
           ++ by right.
        -- intros [(k & [= <-] & ?)|[-> _]];
             (eexists; split; [done|]); apply elem_of_app;
             [by left|right; by apply list_elem_of_singleton].
    + split.
      * intros (k & [= <-] & ->%list_elem_of_singleton). by right.
      * intros [(k & [=] & _)|[-> _]]. eexists. split; [done|].
        by apply list_elem_of_singleton.
  - rewrite subscribe_lookup_ne by done. split; [by left|].
    by intros [?|[_ ?]].
Qed.

Lemma unsubscribe_not_subscribed s c (m : Subscriptions) :
  is_subscribed s c m = false → unsubscribe s c m = m.
Proof.
  intros Hno. unfold unsubscribe. destruct (m !! c) as [l|] eqn:Hl; [|done].
  apply (is_subscribed_false s c m l Hl) in Hno.
  apply list_remove_None in Hno. by rewrite Hno.
Qed.

(** X4. Subscribing and then unsubscribing gives back the registry:
    when the subscriber was not subscribed to the channel, and no
    channel of the registry has an empty list, [unsubscribe] undoes
    [subscribe], the channel key included. *)
Theorem unsubscribe_undoes_subscribe (s c : string) (m : Subscriptions) :
  no_empty_channel m →
  is_subscribed s c m = false →
  unsubscribe s c (subscribe s c m) = m.
Proof.
  intros Hinv Hno. apply map_eq. intros ch.
  destruct (decide (c = ch)) as [<-|Hne].
  - rewrite unsubscribe_lookup, subscribe_lookup. simpl.
    unfold after_removal. destruct (m !! c) as [l|] eqn:Hl.
    + apply (is_subscribed_false s c m l Hl) in Hno.
      rewrite decide_False by done. rewrite list_remove_app_last by done.
      destruct l; [by destruct (Hinv c [] Hl)|done].
    + simpl. by rewrite decide_True.
  - by rewrite unsubscribe_lookup_ne, subscribe_lookup_ne.
Qed.

Lemma unsubscribe_undoes_subscribe_witness :
  let m : Subscriptions := <["x" := ["a"]]> ∅ in
  unsubscribe "b" "x" (subscribe "b" "x" m) = m ∧
  unsubscribe "a" "y" (subscribe "a" "y" m) = m.
Proof.
  intros m.
  assert (Hinv : no_empty_channel m).
  { intros ch l. unfold m. rewrite lookup_insert.
    destruct (decide ("x" = ch)); [by intros [= <-]|]. by rewrite lookup_empty. }
  split.
  - apply (unsubscribe_undoes_subscribe "b" "x" m Hinv). reflexivity.
  - apply (unsubscribe_undoes_subscribe "a" "y" m Hinv). reflexivity.
Defined.

(** X5. [unsubscribe] removes exactly one pairing, and nothing when
    there is none: on a pair that is not subscribed it leaves the
    registry as it is (no error); and where no subscriber is listed
    twice, afterwards [is_subscribed] fails for the pair unsubscribed
    and is unchanged for every other pair. *)
Theorem unsubscribe_removes_one_pairing (s c : string) (m : Subscriptions) :
  (is_subscribed s c m = false → unsubscribe s c m = m) ∧
  (no_duplicate_subscriber m →
   ∀ s' c', is_subscribed s' c' (unsubscribe s c m)
            = is_subscribed s' c' m
              && negb (bool_decide (s' = s) && bool_decide (c' = c))).
Proof.
  split; [apply unsubscribe_not_subscribed|]. intros Hnd s' c'.
  apply eq_true_iff_eq.
  rewrite andb_true_iff, negb_true_iff, andb_false_iff, !bool_decide_eq_false,
    !is_subscribed_true.
  destruct (decide (c' = c)) as [->|Hc].
  - rewrite unsubscribe_lookup. destruct (m !! c) as [l|] eqn:Hl; simpl.
    + unfold after_removal. destruct (list_remove s l) as [k|] eqn:Hk.
      * assert (Hsk : s ∉ k) by exact (list_remove_not_elem s l k (Hnd c l Hl) Hk).
        assert (Hother : ∀ y, y ≠ s → y ∈ k ↔ y ∈ l)
          by (intros y; apply (list_remove_elem_other _ _ _ _ Hk)).
        destruct k as [|x k].
        -- split; [by intros (? & [=] & _)|].
           intros [(k & [= <-] & Hin) [Hs|?]]; [|done].
           apply Hother in Hin; [|done]. by apply elem_of_nil in Hin.
        -- split.
           ++ intros (? & [= <-] & Hin).
              assert (s' ≠ s) by by intros ->.
              split; [|by left]. exists l. split; [done|]. by apply Hother.
           ++ intros [(? & [= <-] & Hin) [Hs|?]]; [|done].
              eexists. split; [done|]. by apply Hother.
      * apply list_remove_None in Hk. split.
        -- intros (? & [= <-] & Hin). split; [by exists l|].
           left. by intros ->.
        -- intros [? _]. done.
    + split; [by intros (? & [=] & _)|]. by intros [(? & [=] & _) _].
  - rewrite unsubscribe_lookup_ne by done. split; [|by intros [? _]].
    intros ?. split; [done|]. by right.
Qed.

Lemma unsubscribe_removes_one_pairing_witness :
  let m : Subscriptions := <["x" := ["a"; "b"]]> ∅ in
  unsubscribe "c" "x" m = m ∧
  is_subscribed "a" "x" (unsubscribe "a" "x" m) = false ∧
  is_subscribed "b" "x" (unsubscribe "a" "x" m) = true.
Proof.
  intros m.
  destruct (unsubscribe_removes_one_pairing "c" "x" m) as [Hnoop _].
  destruct (unsubscribe_removes_one_pairing "a" "x" m) as [_ Hrm].
  assert (Hnd : no_duplicate_subscriber m).
  { intros ch l. unfold m. rewrite lookup_insert.
    destruct (decide ("x" = ch)); [|by rewrite lookup_empty].
    intros [= <-]. apply NoDup_cons. split; [|apply NoDup_singleton].
    intros Hin%list_elem_of_singleton. discriminate Hin. }
  split; [apply Hnoop; reflexivity|].
  split; [apply (Hrm Hnd "a" "x")|apply (Hrm Hnd "b" "x")].
Defined.

(** X6. The subscriber list keeps subscription order: [subscribe]
    puts a new subscriber at the end and leaves the list alone when
    the subscriber is already there; [unsubscribe] takes the
    subscriber out and keeps the others in their order (where no
    subscriber is listed twice). *)
Theorem subscription_order (s c : string) (m : Subscriptions) :
  get_subscribers c (subscribe s c m)
  = (if is_subscribed s c m then get_subscribers c m
     else get_subscribers c m ++ [s]) ∧
  (no_duplicate_subscriber m →
   get_subscribers c (unsubscribe s c m)
   = filter (λ x, x ≠ s) (get_subscribers c m)).
Proof.
  split.
  - unfold get_subscribers, is_subscribed. rewrite subscribe_lookup. simpl.
    destruct (m !! c) as [l|]; simpl; [|done].
    destruct (decide (s ∈ l)).
    + by rewrite bool_decide_eq_true_2.
    + by rewrite bool_decide_eq_false_2.
  - intros Hnd. unfold get_subscribers. rewrite unsubscribe_lookup.
    destruct (m !! c) as [l|] eqn:Hl; simpl; [|done].
    unfold after_removal. destruct (list_remove s l) as [k|] eqn:Hk.
    + rewrite <-(list_remove_filter s l k (Hnd c l Hl) Hk). by destruct k.
    + apply list_remove_None in Hk. simpl. by rewrite filter_other_id.
Qed.

Lemma subscription_order_witness :
  let m : Subscriptions := <["x" := ["a"; "b"; "c"]]> ∅ in
  get_subscribers "x" (subscribe "d" "x" m) = ["a"; "b"; "c"; "d"] ∧
  get_subscribers "x" (unsubscribe "b" "x" m) = ["a"; "c"].
Proof.
  intros m. destruct (subscription_order "d" "x" m) as [Hsub _].
  destruct (subscription_order "b" "x" m) as [_ Hun].
  split; [exact Hsub|]. apply Hun.
  intros ch l. unfold m. rewrite lookup_insert.
  destruct (decide ("x" = ch)); [|by rewrite lookup_empty].
  intros [= <-]. repeat (apply NoDup_cons; split; [|]); try apply NoDup_nil_2;
    rewrite ?elem_of_cons, ?elem_of_nil; intros H;
    repeat destruct H as [H|H]; try discriminate H; done.
Defined.

Lemma after_removal_absent s (l : list string) :
  s ∉ l → after_removal s l = Some l.
Proof.
  intros Hno%list_remove_None. unfold after_removal. by rewrite Hno.
Qed.

Lemma unsubscribe_each_lookup s (chs : list string) (m : Subscriptions) ch :
  NoDup chs →
  foldl (λ acc c, unsubscribe s c acc) m chs !! ch
  = if decide (ch ∈ chs) then m !! ch ≫= after_removal s else m !! ch.
Proof.
  intros Hnd. revert m. induction Hnd as [|c chs Hc Hnd IH]; intros m; simpl.
  - done.
  - rewrite IH. destruct (decide (c = ch)) as [<-|Hne].
    + rewrite decide_False by done. rewrite decide_True by apply list_elem_of_here.
      apply unsubscribe_lookup.
    + rewrite unsubscribe_lookup_ne by done.
      destruct (decide (ch ∈ chs)) as [Hin|Hout].
      * rewrite decide_True; [done|]. by apply list_elem_of_further.
      * rewrite decide_False; [done|].
        rewrite elem_of_cons. intros [->|?]; done.
Qed.

Lemma elem_of_get_subscriptions s ch (m : Subscriptions) :
  ch ∈ get_subscriptions s m ↔ ∃ l, m !! ch = Some l ∧ s ∈ l.
Proof.
  unfold get_subscriptions. rewrite list_elem_of_fmap. split.
  - intros ([c l] & -> & Hin). simpl.
    apply elem_of_map_to_list in Hin.
    apply map_lookup_filter_Some in Hin as [Hl Hs]. by exists l.
  - intros (l & Hl & Hs). exists (ch, l). split; [done|].
    apply elem_of_map_to_list. by apply map_lookup_filter_Some.
Qed.

(** X7. The two views of the registry agree: a channel is among
    [get_subscriptions] of a subscriber exactly when the subscriber is
    among [get_subscribers] of the channel, exactly when
    [is_subscribed] holds for the pair; and [get_subscriptions] lists
    no channel twice, also when a subscriber list has duplicates. *)
Theorem subscription_views_agree (s ch : string) (m : Subscriptions) :
  (ch ∈ get_subscriptions s m ↔ s ∈ get_subscribers ch m) ∧
  (ch ∈ get_subscriptions s m ↔ is_subscribed s ch m = true) ∧
  NoDup (get_subscriptions s m).
Proof.
  assert (Hview : ch ∈ get_subscriptions s m ↔ s ∈ get_subscribers ch m).
  { rewrite elem_of_get_subscriptions. unfold get_subscribers.
    destruct (m !! ch) as [l|]; simpl.
    - split; [by intros (? & [= <-] & ?)|]. intros ?. by exists l.
    - split; [by intros (? & [=] & _)|]. by intros ?%elem_of_nil. }
  split; [done|]. split.
  - rewrite Hview. unfold is_subscribed, get_subscribers.
    by rewrite bool_decide_eq_true.
  - unfold get_subscriptions. apply NoDup_fst_map_to_list.
Qed.

(** X8. [clear_subscriber] does what unsubscribing the subscriber from
    each channel does: for every duplicate-free list of channels that
    contains the subscriber's channels, calling [unsubscribe] on each
    of them, in any order, gives the registry [clear_subscriber] gives. *)
Theorem clear_subscriber_is_unsubscribe_each
    (s : string) (chs : list string) (m : Subscriptions) :
  NoDup chs →
  (∀ ch, is_subscribed s ch m = true → ch ∈ chs) →
  foldl (λ acc ch, unsubscribe s ch acc) m chs = clear_subscriber s m.
Proof.
  intros Hnd Hall. apply map_eq. intros ch.
  rewrite unsubscribe_each_lookup, clear_subscriber_lookup by done.
  destruct (decide (ch ∈ chs)) as [|Hout]; [done|].
  destruct (m !! ch) as [l|] eqn:Hl; simpl; [|done].
  symmetry. apply after_removal_absent. intros Hs. apply Hout, Hall.
  apply is_subscribed_true. by exists l.
Qed.

Lemma clear_subscriber_is_unsubscribe_each_witness :
  let m : Subscriptions := <["x" := ["a"; "b"]]> (<["y" := ["a"]]> ∅) in
  foldl (λ acc ch, unsubscribe "a" ch acc) m (get_subscriptions "a" m)
  = clear_subscriber "a" m ∧
  foldl (λ acc ch, unsubscribe "a" ch acc) m ["z"; "y"; "x"]
  = clear_subscriber "a" m.
Proof.
  intros m. split.
  - apply (clear_subscriber_is_unsubscribe_each "a" (get_subscriptions "a" m) m).
    + unfold get_subscriptions. apply NoDup_fst_map_to_list.
    + intros ch Hch%is_subscribed_true. by apply elem_of_get_subscriptions.
  - apply (clear_subscriber_is_unsubscribe_each "a" ["z"; "y"; "x"] m).
    + repeat (apply NoDup_cons; split; [|]); try apply NoDup_nil_2;
        rewrite ?elem_of_cons, ?elem_of_nil; intros H;
        repeat destruct H as [H|H]; try discriminate H; done.
    + intros ch (l & Hl & Hs)%is_subscribed_true. unfold m in Hl.
      rewrite lookup_insert in Hl.
      destruct (decide ("x" = ch)) as [<-|_];
        [rewrite !elem_of_cons; tauto|].
      rewrite lookup_insert in Hl.
      destruct (decide ("y" = ch)) as [<-|_];
        [rewrite !elem_of_cons; tauto|].
      by rewrite lookup_empty in Hl.
Defined.

(** X9. After [clear_subscriber] the subscriber is gone and nobody
    else is touched (where no subscriber is listed twice): every
    channel's subscriber list is the old one without the subscriber,
    the others in their order, and the subscriber has no subscriptions
    left. *)
Theorem clear_subscriber_removes_subscriber (s : string) (m : Subscriptions) :
  no_duplicate_subscriber m →
  (∀ c, get_subscribers c (clear_subscriber s m)
        = filter (λ x, x ≠ s) (get_subscribers c m)) ∧
  get_subscriptions s (clear_subscriber s m) = [].
Proof.
  intros Hnd.
  assert (Hlists : ∀ c, get_subscribers c (clear_subscriber s m)
                        = filter (λ x, x ≠ s) (get_subscribers c m)).
  { intros c. unfold get_subscribers. rewrite clear_subscriber_lookup.
    destruct (m !! c) as [l|] eqn:Hl; simpl; [|done].
    unfold after_removal. destruct (list_remove s l) as [k|] eqn:Hk.
    - rewrite <-(list_remove_filter s l k (Hnd c l Hl) Hk). by destruct k.
    - apply list_remove_None in Hk. simpl. by rewrite filter_other_id. }
  split; [done|].
  destruct (get_subscriptions s (clear_subscriber s m)) as [|ch chs] eqn:Hsubs;
    [done|].
  assert (Hin : ch ∈ get_subscriptions s (clear_subscriber s m))
    by (rewrite Hsubs; apply list_elem_of_here).
  apply elem_of_get_subscriptions in Hin as (l & Hl & Hs).
  specialize (Hlists ch). unfold get_subscribers at 1 in Hlists.
  rewrite Hl in Hlists. simpl in Hlists. rewrite Hlists in Hs.
  apply list_elem_of_filter in Hs as [Hne _]. done.
Qed.

Lemma clear_subscriber_removes_subscriber_witness :
  let m : Subscriptions := <["x" := ["a"; "b"; "c"]]> ∅ in
  get_subscribers "x" (clear_subscriber "b" m) = ["a"; "c"] ∧
  get_subscriptions "b" (clear_subscriber "b" m) = [].
Proof.
  intros m.
  assert (Hnd : no_duplicate_subscriber m).
  { intros ch l. unfold m. rewrite lookup_insert.
    destruct (decide ("x" = ch)); [|by rewrite lookup_empty].
    intros [= <-]. repeat (apply NoDup_cons; split; [|]); try apply NoDup_nil_2;
      rewrite ?elem_of_cons, ?elem_of_nil; intros H;
      repeat destruct H as [H|H]; try discriminate H; done. }
  destruct (clear_subscriber_removes_subscriber "b" m Hnd) as [Hlists Hnone].
  split; [exact (Hlists "x")|exact Hnone].
Defined.

End RegistryFacts.

(** ** [message.py]: what a payload says about the call that built it *)
Module FactoryFacts.
Import Uuid UuidFacts Py Message.

Lemma MessageType_value_inj (t t' : MessageType) :
  MessageType_value t = MessageType_value t' → t = t'.
Proof. destruct t, t'; simpl; intros H; try discriminate H; reflexivity. Qed.

Lemma recipient_strings_inj (l l' : list UUID) :
  (λ id, VStr (uuid_str id)) <$> l = (λ id, VStr (uuid_str id)) <$> l' → l = l'.
Proof.
  revert l'. induction l as [|u l IH]; intros [|u' l'];
    rewrite ?fmap_nil, ?fmap_cons; intros H; try discriminate H; [done|].
  apply (inj2 cons) in H as [Hu Hl].
  f_equal; [apply uuid_str_inj; congruence|by apply IH].
Qed.

Lemma Some_VStr_inj (x y : string) : Some (VStr x) = Some (VStr y) → x = y.
Proof. by intros [= ->]. Qed.

Lemma Some_VList_inj (x y : list PyVal) : Some (VList x) = Some (VList y) → x = y.
Proof. by intros [= ->]. Qed.

Lemma stamped_sender s r :
  stamped s r !! "sender_agent_id" = Some (VStr (uuid_str s)).
Proof. unfold stamped. by rewrite lookup_insert_ne, lookup_insert_eq. Qed.

Lemma stamped_recipients s r :
  stamped s r !! "recipients"
  = Some (VList ((λ id, VStr (uuid_str id)) <$> or_list r [])).
Proof. unfold stamped. by rewrite lookup_insert_eq. Qed.

Lemma stamped_other s r k :
  k ≠ "sender_agent_id" → k ≠ "recipients" → stamped s r !! k = None.
Proof.
  intros Hs Hr. unfold stamped.
  by rewrite !lookup_insert_ne, lookup_empty.
Qed.

(** X10. A payload tells who sent it and to whom, when the caller's
    content does not use the two stamped keys: two calls of
    [create_message] whose contents have no "sender_agent_id" and no
    "recipients" key return equal payloads only if they agree on the
    message type, the sender, the content, the recipients (an absent
    list read as empty) and the metadata (absent read as empty). *)
Theorem create_message_identifies_inputs
    (mt mt' : MessageType) (s s' : UUID) (c c' : Dict) (t t' : string)
    (r r' : option (list UUID)) (md md' : option Dict) :
  c !! "sender_agent_id" = None → c !! "recipients" = None →
  c' !! "sender_agent_id" = None → c' !! "recipients" = None →
  create_message mt s c t r md = create_message mt' s' c' t' r' md' →
  mt = mt' ∧ s = s' ∧ c = c' ∧ or_list r [] = or_list r' [] ∧
  or_dict md ∅ = or_dict md' ∅.
Proof.
  intros Hs Hr Hs' Hr' Heq.
  assert (Hcontent : ∀ k,
    content (create_message mt s c t r md) !! k
    = content (create_message mt' s' c' t' r' md') !! k) by by rewrite Heq.
  injection Heq as Hmt _ Hmd.
  split; [by apply MessageType_value_inj|]. split; [|split; [|split; [|done]]].
  - specialize (Hcontent "sender_agent_id").
    rewrite !MessageFacts.create_message_content_lookup, Hs, Hs',
      !stamped_sender in Hcontent.
    by apply Some_VStr_inj, uuid_str_inj in Hcontent.
  - apply map_eq. intros k. specialize (Hcontent k).
    rewrite !MessageFacts.create_message_content_lookup in Hcontent.
    destruct (decide (k = "sender_agent_id")) as [->|Hks]; [by rewrite Hs, Hs'|].
    destruct (decide (k = "recipients")) as [->|Hkr]; [by rewrite Hr, Hr'|].
    rewrite !stamped_other in Hcontent by done.
    by destruct (c !! k), (c' !! k).
  - specialize (Hcontent "recipients").
    rewrite !MessageFacts.create_message_content_lookup, Hr, Hr',
      !stamped_recipients in Hcontent.
    by apply Some_VList_inj, recipient_strings_inj in Hcontent.
Qed.

Lemma create_message_identifies_inputs_witness :
  create_message HEARTBEAT Fixtures.agent_a ∅ "t" None None
  = create_message HEARTBEAT Fixtures.agent_a ∅ "u" (Some []) (Some ∅) ∧
  (HEARTBEAT = HEARTBEAT ∧ Fixtures.agent_a = Fixtures.agent_a ∧
   (∅ : Dict) = ∅ ∧
   or_list (None : option (list UUID)) [] = or_list (Some []) [] ∧
   or_dict None ∅ = or_dict (Some ∅) ∅).
Proof.
  split; [reflexivity|].
  apply (create_message_identifies_inputs HEARTBEAT HEARTBEAT
           Fixtures.agent_a Fixtures.agent_a ∅ ∅ "t" "u" None (Some [])
           None (Some ∅)); reflexivity.
Defined.

(** X11. The caller's content wins over what the factory stamps: every
    key of the caller's content is in the payload with the caller's
    value, so a content that brings its own "sender_agent_id" and
    "recipients" yields a payload that does not depend on the sender
    and recipient arguments at all. *)
Theorem create_message_content_overrides
    (mt : MessageType) (s s' : UUID) (c : Dict) (t : string)
    (r r' : option (list UUID)) (md : option Dict) :
  (∀ k v, c !! k = Some v →
     content (create_message mt s c t r md) !! k = Some v) ∧
  (is_Some (c !! "sender_agent_id") → is_Some (c !! "recipients") →
   create_message mt s c t r md = create_message mt s' c t r' md).
Proof.
  split.
  - intros k v Hk. by rewrite MessageFacts.create_message_content_lookup, Hk.
  - intros [vs Hs] [vr Hr]. unfold create_message. f_equal.
    apply map_eq. intros k. rewrite !lookup_union.
    destruct (decide (k = "sender_agent_id")) as [->|Hks];
      [by rewrite Hs, !stamped_sender|].
    destruct (decide (k = "recipients")) as [->|Hkr];
      [by rewrite Hr, !stamped_recipients|].
    by rewrite !stamped_other.
Qed.

Lemma create_message_content_overrides_witness :
  let c : Dict := <["sender_agent_id" := VStr "someone else"]>
                  (<["recipients" := VNone]> ∅) in
  create_message CUSTOM Fixtures.agent_a c "t" None None
  = create_message CUSTOM Fixtures.agent_b c "t" (Some [Fixtures.agent_a]) None.
Proof.
  intros c.
  apply (create_message_content_overrides CUSTOM Fixtures.agent_a
           Fixtures.agent_b c "t" None (Some [Fixtures.agent_a]) None).
  - exists (VStr "someone else"). reflexivity.
  - exists VNone. reflexivity.
Defined.

End FactoryFacts.

(** ** [message_queue.py]: the connected broker *)
Module BrokerFacts.
Import Py MessageQueue.

Ltac run_op :=
  unfold publish, set_message_expiry, get_message, delete_message,
    list_channels, get_channel_subscribers, require_client, try_except,
    bind, get_self, lift, call, ret, raise; simpl.

(** X12. [publish] and [set_message_expiry] serialise before they
    send. On a connected broker, when [json.dumps] rejects the message
    the error goes to the caller and no client call is made; when it
    succeeds exactly one command is sent, carrying the serialised text,
    and its outcome (the subscriber count, or the transport's
    exception) is the outcome of the operation. *)
Theorem serialise_then_send
    (json_dumps : Dict → result string) (redis : Redis) (mq : MessageQueue)
    (c : RedisClient) (tr : list Event) (topic key : string)
    (message : Dict) (ttl : Z) :
  redis_client mq = Some c →
  publish json_dumps redis topic message (mkState mq tr)
  = match json_dumps message with
    | Ok js => (redis _ tr (redis_publish c topic js),
                mkState mq (tr ++ [event (redis_publish c topic js)]))
    | Raise e => (Raise e, mkState mq tr)
    end ∧
  set_message_expiry json_dumps redis key message ttl (mkState mq tr)
  = match json_dumps message with
    | Ok js => (redis _ tr (redis_setex c key ttl js),
                mkState mq (tr ++ [event (redis_setex c key ttl js)]))
    | Raise e => (Raise e, mkState mq tr)
    end.
Proof.
  intros Hc. split; run_op; rewrite Hc; simpl;
    destruct (json_dumps message) as [js|e]; simpl; try done.
  - by destruct (redis Z tr (redis_publish c topic js)).
  - by destruct (redis unit tr (redis_setex c key ttl js)).
Qed.

Lemma serialise_then_send_witness :
  let st := mkState Fixtures.connected [] in
  let unserialisable : Dict := <["id" := VObject "UUID"]> ∅ in
  publish Fixtures.dumps Fixtures.healthy "agent:a:tasks" ∅ st
  = (Ok 0%Z, mkState Fixtures.connected
               [event (redis_publish Fixtures.client "agent:a:tasks" "{}")]) ∧
  publish Fixtures.dumps Fixtures.healthy "agent:a:tasks" unserialisable st
  = (Raise (TypeError "Object of type UUID is not JSON serializable"), st) ∧
  set_message_expiry Fixtures.dumps Fixtures.healthy "k" unserialisable 60 st
  = (Raise (TypeError "Object of type UUID is not JSON serializable"), st).
Proof.
  intros st unserialisable.
  destruct (serialise_then_send Fixtures.dumps Fixtures.healthy
              Fixtures.connected Fixtures.client [] "agent:a:tasks" "k"
              ∅ 60 eq_refl) as [Hpub _].
  destruct (serialise_then_send Fixtures.dumps Fixtures.healthy
              Fixtures.connected Fixtures.client [] "agent:a:tasks" "k"
              unserialisable 60 eq_refl) as [Hpub' Hset'].
  split; [exact Hpub|]. split; [exact Hpub'|exact Hset'].
Defined.

(** X13. The four best-effort operations never raise on a connected
    broker, whatever the server and the decoder do: [get_message],
    [delete_message], [list_channels] and [get_channel_subscribers]
    each send exactly one command, leave the broker's fields alone and
    return a value. *)
Theorem best_effort_operations_never_raise
    (json_loads : string → result PyVal) (redis : Redis) (mq : MessageQueue)
    (c : RedisClient) (tr : list Event) (key channel : string) :
  redis_client mq = Some c →
  (∃ v, get_message json_loads redis key (mkState mq tr)
        = (Ok v, mkState mq (tr ++ [event (redis_get c key)]))) ∧
  (∃ b, delete_message redis key (mkState mq tr)
        = (Ok b, mkState mq (tr ++ [event (redis_delete c key)]))) ∧
  (∃ l, list_channels redis (mkState mq tr)
        = (Ok l, mkState mq (tr ++ [event (redis_pubsub_channels c)]))) ∧
  (∃ n, get_channel_subscribers redis channel (mkState mq tr)
        = (Ok n, mkState mq (tr ++ [event (redis_pubsub_numsub c channel)]))).
Proof.
  intros Hc. repeat split; run_op; rewrite Hc; simpl.
  - destruct (redis _ tr (redis_get c key)) as [[[|a s]|]|e]; simpl;
      try by eexists.
    destruct (json_loads (String a s)); by eexists.
  - destruct (redis _ tr (redis_delete c key)); by eexists.
  - destruct (redis _ tr (redis_pubsub_channels c)); by eexists.
  - destruct (redis _ tr (redis_pubsub_numsub c channel)) as [[|? ?]|];
      by eexists.
Qed.

Lemma best_effort_operations_never_raise_witness :
  let st := mkState Fixtures.connected [] in
  (∃ v, get_message Fixtures.loads Fixtures.store_down "k" st
        = (Ok v, mkState Fixtures.connected
                   [event (redis_get Fixtures.client "k")])) ∧
  (∃ b, delete_message Fixtures.store_down "k" st
        = (Ok b, mkState Fixtures.connected
                   [event (redis_delete Fixtures.client "k")])).
Proof.
  intros st.
  destruct (best_effort_operations_never_raise Fixtures.loads
              Fixtures.store_down Fixtures.connected Fixtures.client []
              "k" "agent:a:tasks" eq_refl) as (Hget & Hdel & _).
  split; [exact Hget|exact Hdel].
Defined.

(** X14. What the best-effort answers mean. [get_message] returns a
    value other than [None] only when the store held a non-empty text
    under the key and [json.loads] decoded it to that value, and it
    returns every such value; [delete_message] returns [True] exactly
    when the store reports a positive number of deleted keys. A
    missing key, an empty text, an undecodable text and a failed
    command all read as [None] (resp. [False]). *)
Theorem best_effort_answers
    (json_loads : string → result PyVal) (redis : Redis) (mq : MessageQueue)
    (c : RedisClient) (tr : list Event) (key : string) (v : PyVal) :
  redis_client mq = Some c →
  v ≠ VNone →
  ((get_message json_loads redis key (mkState mq tr)).1 = Ok v
   ↔ ∃ text, redis _ tr (redis_get c key) = Ok (Some text) ∧
             text ≠ "" ∧ json_loads text = Ok v) ∧
  ((delete_message redis key (mkState mq tr)).1 = Ok true
   ↔ ∃ n, redis _ tr (redis_delete c key) = Ok n ∧ (0 < n)%Z).
Proof.
  intros Hc Hv. split; run_op; rewrite Hc; simpl.
  - destruct (redis _ tr (redis_get c key)) as [[[|a s]|]|e] eqn:Hget; simpl.
    + split; [intros [= <-]; done|]. intros (text & [= <-] & Hne & _). done.
    + destruct (json_loads (String a s)) as [w|e] eqn:Hw; simpl.
      * split.
        -- intros [= ->]. by exists (String a s).
        -- intros (text & [= <-] & _ & Hw'). congruence.
      * split; [intros [= <-]; done|].
        intros (text & [= <-] & _ & Hw'). congruence.
    + split; [intros [= <-]; done|]. by intros (text & [=] & _).
    + split; [intros [= <-]; done|]. by intros (text & [=] & _).
  - destruct (redis _ tr (redis_delete c key)) as [n|e]; simpl.
    + split.
      * intros [= Hn]. exists n. split; [done|]. by apply Z.ltb_lt.
      * intros (n' & [= <-] & Hn). f_equal. by apply Z.ltb_lt.
    + split; [done|]. by intros (n & [=] & _).
Qed.

Lemma best_effort_answers_witness :
  let st := mkState Fixtures.connected [] in
  (get_message Fixtures.loads (Fixtures.storing "true") "k" st).1
  = Ok (VBool true) ∧
  (delete_message (Fixtures.storing "true") "k" st).1 = Ok true.
Proof.
  intros st.
  assert (Hv : VBool true ≠ VNone) by discriminate.
  destruct (best_effort_answers Fixtures.loads (Fixtures.storing "true")
              Fixtures.connected Fixtures.client [] "k" (VBool true)
              eq_refl Hv) as [Hget Hdel].
  split.
  - apply Hget. exists "true". repeat split. discriminate.
  - apply Hdel. exists 1%Z. split; [reflexivity|lia].
Defined.

(** X19. [get_channel_subscribers] does not report the count the
    server gives: on a connected broker it sends one [PUBSUB NUMSUB]
    and returns 0 whatever the reply, a list of pairs with any count
    in it, an empty list or a failure. *)
Theorem subscriber_count_is_always_zero
    (redis : Redis) (mq : MessageQueue) (c : RedisClient) (tr : list Event)
    (channel : string) :
  redis_client mq = Some c →
  get_channel_subscribers redis channel (mkState mq tr)
  = (Ok 0%Z, mkState mq (tr ++ [event (redis_pubsub_numsub c channel)])).
Proof.
  intros Hc. run_op. rewrite Hc. simpl.
  by destruct (redis _ tr (redis_pubsub_numsub c channel)) as [[|? ?]|].
Qed.

Lemma subscriber_count_is_always_zero_witness :
  Fixtures.subscribed 5 _ []
    (redis_pubsub_numsub Fixtures.client "agent:a:tasks")
  = Ok [("agent:a:tasks", 5%Z)] ∧
  get_channel_subscribers (Fixtures.subscribed 5) "agent:a:tasks"
    (mkState Fixtures.connected [])
  = (Ok 0%Z,
     mkState Fixtures.connected
       [event (redis_pubsub_numsub Fixtures.client "agent:a:tasks")]).
Proof.
  split; [reflexivity|].
  apply (subscriber_count_is_always_zero (Fixtures.subscribed 5)
           Fixtures.connected Fixtures.client [] "agent:a:tasks").
  reflexivity.
Defined.

(** *** Subscription streams *)

Lemma subscribe_loop_decoded (json_loads : string → result PyVal) messages :
  (∀ text e, json_loads text = Raise e → ∃ msg, e = JSONDecodeError msg) →
  subscribe_loop json_loads messages
  = mkStream
      (omap (λ m, if String.eqb (m_type m) "message"
                  then match json_loads (m_data m) with
                       | Ok v => Some v
                       | Raise _ => None
                       end
                  else None) messages)
      None.
Proof.
  intros Honly. induction messages as [|m messages IH]; simpl; [done|].
  destruct (String.eqb (m_type m) "message"); [|done].
  destruct (json_loads (m_data m)) as [v|e] eqn:Hm.
  - by rewrite IH.
  - by destruct (Honly _ _ Hm) as [msg ->].
Qed.

Lemma psubscribe_loop_decoded (json_loads : string → result PyVal) messages :
  (∀ text e, json_loads text = Raise e → ∃ msg, e = JSONDecodeError msg) →
  psubscribe_loop json_loads messages
  = mkStream
      (omap (λ m, if String.eqb (m_type m) "pmessage"
                  then match json_loads (m_data m) with
                       | Ok v => Some (m_channel m, v)
                       | Raise _ => None
                       end
                  else None) messages)
      None.
Proof.
  intros Honly. induction messages as [|m messages IH]; simpl; [done|].
  destruct (String.eqb (m_type m) "pmessage"); [|done].
  destruct (json_loads (m_data m)) as [v|e] eqn:Hm.
  - by rewrite IH.
  - by destruct (Honly _ _ Hm) as [msg ->].
Qed.

(** X15. What a subscription yields. With a decoder that fails only
    with [JSONDecodeError], on a connected broker whose session
    delivers [messages], [subscribe] yields the decoded payloads of
    the entries of type "message" that decode, in arrival order, and
    nothing else: entries of any other type (the subscribe
    confirmation, "pmessage") are passed over. [psubscribe] does the
    same for the type "pmessage" and pairs each payload with the
    channel it arrived on. Neither stream ends with an error. *)
Theorem subscription_yields_decoded
    (json_loads : string → result PyVal) (redis : Redis) (mq : MessageQueue)
    (c : RedisClient) (ps : PubSub) (tr : list Event)
    (topic pattern : string) (messages : list RawMessage) :
  (∀ text e, json_loads text = Raise e → ∃ msg, e = JSONDecodeError msg) →
  redis_client mq = Some c →
  session_delivers redis c ps messages →
  (subscribe json_loads redis topic (mkState mq tr)).1
  = Ok (mkStream
          (omap (λ m, if String.eqb (m_type m) "message"
                      then match json_loads (m_data m) with
                           | Ok v => Some v
                           | Raise _ => None
                           end
                      else None) messages)
          None) ∧
  (psubscribe json_loads redis pattern (mkState mq tr)).1
  = Ok (mkStream
          (omap (λ m, if String.eqb (m_type m) "pmessage"
                      then match json_loads (m_data m) with
                           | Ok v => Some (m_channel m, v)
                           | Raise _ => None
                           end
                      else None) messages)
          None).
Proof.
  intros Honly Hc Henv. split.
  - rewrite (MessageQueueFacts.subscribe_run _ _ _ c ps _ _ messages) by done.
    by rewrite subscribe_loop_decoded.
  - rewrite (MessageQueueFacts.psubscribe_run _ _ _ c ps _ _ messages) by done.
    by rewrite psubscribe_loop_decoded.
Qed.

Lemma loads_fails_with_JSONDecodeError text e :
  Fixtures.loads text = Raise e → ∃ msg, e = JSONDecodeError msg.
Proof.
  unfold Fixtures.loads.
  repeat (destruct (String.eqb text _); [discriminate|]).
  intros [= <-]. by eexists.
Qed.

Lemma subscription_yields_decoded_witness :
  let arrivals :=
    [mkRaw "subscribe" None "agent:a:tasks" "1";
     mkRaw "message" None "agent:a:tasks" "true";
     mkRaw "message" None "agent:a:tasks" "{not json";
     mkRaw "pmessage" (Some "agent:a:*") "agent:a:status" "false";
     mkRaw "message" None "agent:a:tasks" "{}"] in
  let st := mkState Fixtures.connected [] in
  (subscribe Fixtures.loads (Fixtures.delivering arrivals)
     "agent:a:tasks" st).1
  = Ok (mkStream [VBool true; VDict ∅] None) ∧
  (psubscribe Fixtures.loads (Fixtures.delivering arrivals)
     "agent:a:*" st).1
  = Ok (mkStream [("agent:a:status", VBool false)] None).
Proof.
  intros arrivals st.
  apply (subscription_yields_decoded Fixtures.loads
           (Fixtures.delivering arrivals) Fixtures.connected Fixtures.client
           (mkPubSub 0) [] "agent:a:tasks" "agent:a:*" arrivals).
  - exact loads_fails_with_JSONDecodeError.
  - reflexivity.
  - intros tr. repeat split.
Defined.

Ltac run_generator :=
  unfold subscribe, psubscribe, generator, generator_finally, require_client,
    try_except, attempt, bind, get_self, call, ret, raise; simpl.

(** X16. A subscription always takes its topic back, and closes its
    session only if that worked. On a connected broker, once
    [pubsub()] has returned a session, [subscribe] sends [subscribe]
    for its topic, then [listen] exactly when subscribing succeeded,
    then [unsubscribe] for its topic exactly once, whether these
    succeeded or raised; [close] follows exactly when [unsubscribe]
    succeeded; when [unsubscribe] raises, the session is not closed
    and that exception is the one the consumer gets. Nothing else is
    sent and the broker's fields are not touched. [psubscribe] behaves
    the same with [psubscribe] and [punsubscribe]. *)
Theorem subscription_cleanup
    (json_loads : string → result PyVal) (redis : Redis) (mq : MessageQueue)
    (c : RedisClient) (ps : PubSub) (tr : list Event) (topic : string) :
  redis_client mq = Some c →
  redis _ tr (redis_pubsub c) = Ok ps →
  (let session := tr ++ [event (redis_pubsub c)] in
   let opened := session ++ [event (pubsub_subscribe ps topic)] in
   let mid := match redis _ session (pubsub_subscribe ps topic) with
              | Ok _ => opened ++ [event (pubsub_listen ps)]
              | Raise _ => opened
              end in
   ∃ s,
     subscribe json_loads redis topic (mkState mq tr)
     = (Ok s,
        mkState mq
          ((mid ++ [event (pubsub_unsubscribe ps topic)])
           ++ match redis _ mid (pubsub_unsubscribe ps topic) with
              | Ok _ => [event (pubsub_close ps)]
              | Raise _ => []
              end)) ∧
     (∀ e, redis _ mid (pubsub_unsubscribe ps topic) = Raise e →
           ending s = Some e)) ∧
  (let session := tr ++ [event (redis_pubsub c)] in
   let opened := session ++ [event (pubsub_psubscribe ps topic)] in
   let mid := match redis _ session (pubsub_psubscribe ps topic) with
              | Ok _ => opened ++ [event (pubsub_listen ps)]
              | Raise _ => opened
              end in
   ∃ s,
     psubscribe json_loads redis topic (mkState mq tr)
     = (Ok s,
        mkState mq
          ((mid ++ [event (pubsub_punsubscribe ps topic)])
           ++ match redis _ mid (pubsub_punsubscribe ps topic) with
              | Ok _ => [event (pubsub_close ps)]
              | Raise _ => []
              end)) ∧
     (∀ e, redis _ mid (pubsub_punsubscribe ps topic) = Raise e →
           ending s = Some e)).
Proof.
  intros Hc Hps. split; run_generator; rewrite Hc; simpl; rewrite Hps; simpl.
  - destruct (redis _ (tr ++ [event (redis_pubsub c)])
                (pubsub_subscribe ps topic)) as [[]|e1]; simpl.
    + set (mid := ((tr ++ [event (redis_pubsub c)])
                   ++ [event (pubsub_subscribe ps topic)])
                  ++ [event (pubsub_listen ps)]).
      destruct (redis _ _ (pubsub_listen ps)) as [[messages e2]|e2]; simpl;
        destruct (redis _ mid (pubsub_unsubscribe ps topic)) as [[]|e3];
        simpl; eexists;
        (split; [rewrite ?app_nil_r; reflexivity|]); intros e [=]; by subst.
    + set (mid := (tr ++ [event (redis_pubsub c)])
                  ++ [event (pubsub_subscribe ps topic)]).
      destruct (redis _ mid (pubsub_unsubscribe ps topic)) as [[]|e3];
        simpl; eexists;
        (split; [rewrite ?app_nil_r; reflexivity|]); intros e [=]; by subst.
  - destruct (redis _ (tr ++ [event (redis_pubsub c)])
                (pubsub_psubscribe ps topic)) as [[]|e1]; simpl.
    + set (mid := ((tr ++ [event (redis_pubsub c)])
                   ++ [event (pubsub_psubscribe ps topic)])
                  ++ [event (pubsub_listen ps)]).
      destruct (redis _ _ (pubsub_listen ps)) as [[messages e2]|e2]; simpl;
        destruct (redis _ mid (pubsub_punsubscribe ps topic)) as [[]|e3];
        simpl; eexists;
        (split; [rewrite ?app_nil_r; reflexivity|]); intros e [=]; by subst.
    + set (mid := (tr ++ [event (redis_pubsub c)])
                  ++ [event (pubsub_psubscribe ps topic)]).
      destruct (redis _ mid (pubsub_punsubscribe ps topic)) as [[]|e3];
        simpl; eexists;
        (split; [rewrite ?app_nil_r; reflexivity|]); intros e [=]; by subst.
Qed.

Lemma subscription_cleanup_witness :
  let st := mkState Fixtures.connected [] in
  let ps := mkPubSub 0 in
  ∃ s, ending s = Some Fixtures.refused ∧
       subscribe Fixtures.loads Fixtures.stuck_session "agent:a:tasks" st
       = (Ok s,
          mkState Fixtures.connected
            [event (redis_pubsub Fixtures.client);
             event (pubsub_subscribe ps "agent:a:tasks");
             event (pubsub_listen ps);
             event (pubsub_unsubscribe ps "agent:a:tasks")]).
Proof.
  intros st ps.
  destruct (subscription_cleanup Fixtures.loads Fixtures.stuck_session
              Fixtures.connected Fixtures.client ps [] "agent:a:tasks"
              eq_refl eq_refl) as [(s & Hrun & Hend) _].
  exists s. split; [by apply Hend|exact Hrun].
Defined.

(** *** The fields of the broker *)

Ltac case_outcomes :=
  repeat match goal with
         | |- context [match ?env ?R ?t ?c with _ => _ end] =>
             is_var env; destruct (env R t c); simpl
         | |- context [match ?x with _ => _ end] => is_var x; destruct x; simpl
         end.

Lemma invoke_keeps_self json_loads json_dumps (redis : Redis) st m :
  m ≠ BrokerCalls.Connect →
  self (BrokerCalls.invoke json_loads json_dumps redis st m) = self st.
Proof.
  intros Hm. destruct st as [[url cl ps] tr].
  destruct m; simpl.
  - done.
  - apply MessageQueueFacts.disconnect_keeps_client.
  - run_op. destruct cl as [c|]; simpl; [|done].
    destruct (json_dumps message) as [js|e]; simpl; [|done].
    by destruct (redis _ tr (redis_publish c topic js)).
  - run_generator. destruct cl as [c|]; simpl; [|done].
    by case_outcomes.
  - run_generator. destruct cl as [c|]; simpl; [|done].
    by case_outcomes.
  - run_op. destruct cl as [c|]; simpl; [|done].
    destruct (json_dumps value) as [js|e]; simpl; [|done].
    by destruct (redis _ tr (redis_setex c key ttl_seconds js)).
  - run_op. destruct cl as [c|]; simpl; [|done].
    destruct (redis _ tr (redis_get c key)) as [[[|a s]|]|e]; simpl; try done.
    by destruct (json_loads (String a s)).
  - run_op. destruct cl as [c|]; simpl; [|done]. by case_outcomes.
  - run_op. destruct cl as [c|]; simpl; [|done]. by case_outcomes.
  - run_op. destruct cl as [c|]; simpl; [|done]. by case_outcomes.
Qed.

Lemma connect_writes_client (redis : Redis) st :
  self (connect redis st).2 = self st ∨
  ∃ c, self (connect redis st).2
       = {| redis_url := redis_url (self st); redis_client := Some c;
            pubsub := pubsub (self st) |}.
Proof.
  destruct st as [[url cl ps] tr].
  unfold connect, try_except, bind, get_self, call, set_redis_client, raise.
  simpl. destruct (redis _ tr (redis_from_url url)) as [c|e]; simpl;
    [|by left]. right. exists c.
  by destruct (redis _ _ (redis_ping c)).
Qed.

Lemma invoke_self json_loads json_dumps (redis : Redis) st m :
  self (BrokerCalls.invoke json_loads json_dumps redis st m) = self st ∨
  ∃ c, self (BrokerCalls.invoke json_loads json_dumps redis st m)
       = {| redis_url := redis_url (self st); redis_client := Some c;
            pubsub := pubsub (self st) |}.
Proof.
  destruct m; try (left; by apply invoke_keeps_self).
  apply connect_writes_client.
Qed.

(** X17. Only [connect] writes a field of the broker, and only
    [redis_client]: every other method leaves the three fields as
    they are, in every state, and [connect] either does the same or
    stores a client. After any sequence of calls on a fresh broker,
    under any server: [redis_url] is the one the broker was built
    with; [pubsub] is still [None], so [disconnect] closes the client
    and never a session; and a broker that holds a client holds one
    after every further call, [disconnect] included. *)
Theorem broker_fields
    (json_loads : string → result PyVal) (json_dumps : Dict → result string)
    (redis : Redis) (url : string) (calls : list BrokerCalls.Method)
    (m : BrokerCalls.Method) :
  let st := BrokerCalls.run json_loads json_dumps redis url calls in
  redis_url (self st) = url ∧
  pubsub (self st) = None ∧
  disconnect redis st
  = match redis_client (self st) with
    | Some c => (redis _ (trace st) (redis_close c),
                 mkState (self st) (trace st ++ [event (redis_close c)]))
    | None => (Ok tt, st)
    end ∧
  (is_Some (redis_client (self st)) →
   is_Some (redis_client
              (self (BrokerCalls.invoke json_loads json_dumps redis st m)))) ∧
  (∀ st', m ≠ BrokerCalls.Connect →
     self (BrokerCalls.invoke json_loads json_dumps redis st' m) = self st') ∧
  (∀ st',
     self (BrokerCalls.invoke json_loads json_dumps redis st'
             BrokerCalls.Connect) = self st' ∨
     ∃ c, self (BrokerCalls.invoke json_loads json_dumps redis st'
                  BrokerCalls.Connect)
          = {| redis_url := redis_url (self st'); redis_client := Some c;
               pubsub := pubsub (self st') |}).
Proof.
  intros st.
  assert (Hinv : redis_url (self st) = url ∧ pubsub (self st) = None).
  { subst st. unfold BrokerCalls.run.
    induction calls as [|m' calls IH] using rev_ind; [done|].
    rewrite foldl_app. simpl.
    destruct (invoke_self json_loads json_dumps redis
                (foldl (BrokerCalls.invoke json_loads json_dumps redis)
                   (mkState (init url) []) calls) m') as [-> | [c ->]];
      [done|]. simpl. done. }
  destruct Hinv as [Hurl Hps]. split; [done|]. split; [done|].
  split; [|split; [|split]].
  - unfold disconnect, bind, get_self, call, ret. simpl. rewrite Hps.
    destruct st as [mq tr]. simpl. by destruct (redis_client mq).
  - intros Hsome.
    destruct (invoke_self json_loads json_dumps redis st m) as [-> | [c ->]];
      [done|]. by eexists.
  - intros st' Hm. by apply invoke_keeps_self.
  - intros st'. apply connect_writes_client.
Qed.

Lemma broker_fields_witness :
  let st := BrokerCalls.run Fixtures.loads Fixtures.dumps Fixtures.healthy
              Fixtures.url [BrokerCalls.Connect; BrokerCalls.Disconnect] in
  pubsub (self st) = None ∧
  is_Some (redis_client
             (self (BrokerCalls.invoke Fixtures.loads Fixtures.dumps
                      Fixtures.healthy st
                      (BrokerCalls.Publish "agent:a:tasks" ∅)))).
Proof.
  intros st.
  destruct (broker_fields Fixtures.loads Fixtures.dumps Fixtures.healthy
              Fixtures.url [BrokerCalls.Connect; BrokerCalls.Disconnect]
              (BrokerCalls.Publish "agent:a:tasks" ∅))
    as (_ & Hps & _ & Hkeep & _).
  split; [exact Hps|]. apply Hkeep. by exists Fixtures.client.
Defined.

(** *** [async with MessageQueueContext(url) as mq] *)

(** X18. The context manager closes the connection it opened, once,
    however the block ends, but only if entering succeeded. When
    [connect] succeeds, the block runs on the connected broker and
    then exactly one [close] is sent for the client: the block's value
    or exception is the outcome, unless [close] itself raises. When
    the handshake ping fails, the error goes to the caller, the block
    does not run and no [close] is sent for the client that was
    built. *)
Theorem context_manager_closes_what_it_opened
    {A : Type} (redis : Redis) (url : string) (tr : list Event)
    (body : M A) (c : RedisClient) :
  let st := mkState (init url) tr in
  let opened := {| redis_url := url; redis_client := Some c; pubsub := None |} in
  let tr1 := tr ++ [event (redis_from_url url)] ++ [event (redis_ping c)] in
  redis _ tr (redis_from_url url) = Ok c →
  (∀ r st2,
     redis _ (tr ++ [event (redis_from_url url)]) (redis_ping c) = Ok tt →
     body (mkState opened tr1) = (r, st2) →
     self st2 = opened →
     MessageQueueContext.async_with redis body st
     = (match redis _ (trace st2) (redis_close c) with
        | Ok _ => r
        | Raise e => Raise e
        end,
        mkState opened (trace st2 ++ [event (redis_close c)]))) ∧
  (∀ e,
     redis _ (tr ++ [event (redis_from_url url)]) (redis_ping c) = Raise e →
     MessageQueueContext.async_with redis body st
     = (Raise e, mkState opened tr1)).
Proof.
  intros st opened tr1 Hurl. split.
  - intros r st2 Hping Hbody Hself.
    assert (Hconn : connect redis st = (Ok tt, mkState opened tr1))
      by exact (MessageQueueFacts.connect_success redis (init url) tr c Hurl Hping).
    unfold MessageQueueContext.async_with, MessageQueueContext.aenter,
      MessageQueueContext.aexit, bind, attempt.
    rewrite Hconn. cbv beta iota. rewrite Hbody. cbv beta iota.
    unfold disconnect, bind, get_self, call, ret, lift.
    destruct st2 as [mq2 tr2]. simpl in Hself. subst mq2. simpl.
    by destruct (redis _ tr2 (redis_close c)).
  - intros e Hping.
    assert (Hconn : connect redis st = (Raise e, mkState opened tr1))
      by exact (MessageQueueFacts.connect_ping_failure redis (init url) tr c e
                  Hurl Hping).
    unfold MessageQueueContext.async_with, MessageQueueContext.aenter, bind.
    by rewrite Hconn.
Qed.

Lemma context_manager_closes_what_it_opened_witness :
  let st := mkState (init Fixtures.url) [] in
  MessageQueueContext.async_with Fixtures.healthy
    (publish Fixtures.dumps Fixtures.healthy "agent:a:tasks"
       (<["id" := VObject "UUID"]> ∅)) st
  = (Raise (TypeError "Object of type UUID is not JSON serializable"),
     mkState Fixtures.connected
       [event (redis_from_url Fixtures.url); event (redis_ping Fixtures.client);
        event (redis_close Fixtures.client)]) ∧
  MessageQueueContext.async_with Fixtures.ping_refused
    (publish Fixtures.dumps Fixtures.ping_refused "agent:a:tasks" ∅) st
  = (Raise Fixtures.refused,
     mkState Fixtures.connected
       [event (redis_from_url Fixtures.url); event (redis_ping Fixtures.client)]).
Proof.
  intros st. split.
  - destruct (context_manager_closes_what_it_opened Fixtures.healthy
                Fixtures.url []
                (publish Fixtures.dumps Fixtures.healthy "agent:a:tasks"
                   (<["id" := VObject "UUID"]> ∅))
                Fixtures.client eq_refl) as [Hok _].
    apply (Hok (Raise (TypeError "Object of type UUID is not JSON serializable"))
             (mkState Fixtures.connected
                [event (redis_from_url Fixtures.url);
                 event (redis_ping Fixtures.client)]));
      reflexivity.
  - destruct (context_manager_closes_what_it_opened Fixtures.ping_refused
                Fixtures.url []
                (publish Fixtures.dumps Fixtures.ping_refused
                   "agent:a:tasks" ∅)
                Fixtures.client eq_refl) as [_ Hfail].
    apply (Hfail Fixtures.refused). reflexivity.
Defined.

End BrokerFacts.
